(** * Trending-title keyword pipeline: segment.py, mapper.py, reducer.py, web/app.py

    A shallow embedding of the term-extraction and ranking pipeline and the
    properties its specification states about it.

    Python values are modelled as follows.
    - [str] is a list of Unicode code points ([list N]); [len] is [length].
    - [int] is [Z] (unbounded, as in Python).
    - a [set] of strings is a [gset (list N)], a [dict] a [gmap].
    - standard input is the list of its lines, standard output the list of
      the strings passed to [sys.stdout.write], in order.
    - files are [option (list N)]: [None] when the path does not exist.

    Part I holds the definitions, Part II the theorems. *)

From Stdlib Require Import ZArith Lia Sorting.Sorted Sorting.Permutation DecimalPos.
From stdpp Require Import base decidable option numbers list gmap sorting.

(** ** Part I. Definitions *)

(** *** Python built-ins used by the scripts *)
Module Py.

(** Code points are [N]; strings are [list N]. *)
Abbreviation str := (list N) (only parsing).

Definition in_range (lo hi c : N) : bool := ((lo <=? c) && (c <=? hi))%N.

(** [str.isspace] on one character: the characters [strip()], [split()]
    and the regular expression class [\s] treat as whitespace. *)
Definition isspace (c : N) : bool :=
  in_range 0x09 0x0D c || in_range 0x1C 0x20 c || (c =? 0x85)%N
  || (c =? 0xA0)%N || (c =? 0x1680)%N || in_range 0x2000 0x200A c
  || in_range 0x2028 0x2029 c || (c =? 0x202F)%N || (c =? 0x205F)%N
  || (c =? 0x3000)%N.

Fixpoint drop_while (p : N → bool) (s : str) : str :=
  match s with
  | [] => []
  | c :: s' => if p c then drop_while p s' else s
  end.

Definition lstrip (s : str) : str := drop_while isspace s.
Definition rstrip (s : str) : str := reverse (drop_while isspace (reverse s)).
(** [s.strip()] *)
Definition strip (s : str) : str := rstrip (lstrip s).

(** [s.split()] with no argument: the maximal runs of non-whitespace.
    [cur] is the run being read, most recent character first. *)
Fixpoint split_ws_aux (cur : str) (s : str) : list str :=
  match s with
  | [] => match cur with [] => [] | _ => [reverse cur] end
  | c :: s' =>
      if isspace c
      then match cur with
           | [] => split_ws_aux [] s'
           | _ => reverse cur :: split_ws_aux [] s'
           end
      else split_ws_aux (c :: cur) s'
  end.
Definition split_ws (s : str) : list str := split_ws_aux [] s.

(** The text before and after the first occurrence of [sep]. *)
Fixpoint partition_at (sep : N) (s : str) : option (str * str) :=
  match s with
  | [] => None
  | c :: s' =>
      if (c =? sep)%N then Some ([], s')
      else match partition_at sep s' with
           | Some (a, b) => Some (c :: a, b)
           | None => None
           end
  end.

(** [sep in s] for a one-character [sep]. *)
Definition contains (sep : N) (s : str) : bool :=
  bool_decide (sep ∈ s).

(** [s.split(sep, 1)] for a one-character [sep]. *)
Definition split1 (sep : N) (s : str) : list str :=
  match partition_at sep s with
  | Some (a, b) => [a; b]
  | None => [s]
  end.

(** [sep.join(l)] *)
Fixpoint join (sep : str) (l : list str) : str :=
  match l with
  | [] => []
  | [x] => x
  | x :: l' => x ++ sep ++ join sep l'
  end.

(** [s.splitlines()]: line boundaries are LF, CR, CR LF, VT, FF, FS, GS,
    RS, NEL, LS and PS; no empty last line. *)
Definition is_linebreak (c : N) : bool :=
  in_range 0x0A 0x0D c || in_range 0x1C 0x1E c || (c =? 0x85)%N
  || in_range 0x2028 0x2029 c.

Fixpoint splitlines_aux (cur : str) (s : str) : list str :=
  match s with
  | [] => match cur with [] => [] | _ => [reverse cur] end
  | c :: s' =>
      if is_linebreak c
      then reverse cur ::
           match s' with
           | c' :: s'' =>
               if ((c =? 0x0D) && (c' =? 0x0A))%N
               then splitlines_aux [] s''
               else splitlines_aux [] s'
           | [] => []
           end
      else splitlines_aux (c :: cur) s'
  end.
Definition splitlines (s : str) : list str := splitlines_aux [] s.

(** Unicode decimal digits (category Nd, Unicode 14): each range starts
    at a digit zero and the value is the offset modulo ten. *)
Definition decimal_ranges : list (N * N) :=
  ((λ lo, (lo, lo + 9)%N) <$>
    [0x30; 0x660; 0x6F0; 0x7C0; 0x966; 0x9E6; 0xA66; 0xAE6; 0xB66; 0xBE6;
     0xC66; 0xCE6; 0xD66; 0xDE6; 0xE50; 0xED0; 0xF20; 0x1040; 0x1090;
     0x17E0; 0x1810; 0x1946; 0x19D0; 0x1A80; 0x1A90; 0x1B50; 0x1BB0;
     0x1C40; 0x1C50; 0xA620; 0xA8D0; 0xA900; 0xA9D0; 0xA9F0; 0xAA50;
     0xABF0; 0xFF10; 0x104A0; 0x10D30; 0x11066; 0x110F0; 0x11136;
     0x111D0; 0x112F0; 0x11450; 0x114D0; 0x11650; 0x116C0; 0x11730;
     0x118E0; 0x11950; 0x11C50; 0x11D50; 0x11DA0; 0x16A60; 0x16AC0;
     0x16B50; 0x1E140; 0x1E2F0; 0x1E950; 0x1FBF0]%N)
  ++ [(0x1D7CE, 0x1D7FF)%N].

Definition todecimal (c : N) : option N :=
  match find (λ r, in_range r.1 r.2 c) decimal_ranges with
  | Some r => Some ((c - r.1) mod 10)%N
  | None => None
  end.

(** Characters for which [str.isdigit] holds (Numeric_Type Digit or
    Decimal, Unicode 14): the decimal digits and the superscript,
    subscript, circled and similar digits. *)
Definition digit_extra_ranges : list (N * N) :=
  [(0xB2, 0xB3); (0xB9, 0xB9); (0x1369, 0x1371); (0x19DA, 0x19DA);
   (0x2070, 0x2070); (0x2074, 0x2079); (0x2080, 0x2089); (0x2460, 0x2468);
   (0x2474, 0x247C); (0x2488, 0x2490); (0x24EA, 0x24EA); (0x24F5, 0x24FD);
   (0x24FF, 0x24FF); (0x2776, 0x277E); (0x2780, 0x2788); (0x278A, 0x2792);
   (0x10A40, 0x10A43); (0x10E60, 0x10E68); (0x11052, 0x1105A);
   (0x1F100, 0x1F10A)]%N.

Definition isdigit_char (c : N) : bool :=
  existsb (λ r, in_range r.1 r.2 c) (decimal_ranges ++ digit_extra_ranges).

(** [s.isdigit()]: at least one character, all of them digits. *)
Definition isdigit (s : str) : bool :=
  match s with
  | [] => false
  | _ => forallb isdigit_char s
  end.

(** [int(s)] in base ten.  CPython first maps the string to ASCII
    (characters below 127 are kept, other whitespace becomes a space,
    other decimal digits their ASCII digit, anything else stops the
    string with a question mark), then reads optional ASCII whitespace,
    an optional sign, digits with single underscores between them, and
    optional ASCII whitespace up to the end.  [None] is [ValueError].
    The interpreter's limit on the number of digits is not modelled. *)
Fixpoint to_ascii (s : str) : str :=
  match s with
  | [] => []
  | c :: s' =>
      if (c <? 127)%N then c :: to_ascii s'
      else if isspace c then 0x20%N :: to_ascii s'
      else match todecimal c with
           | Some d => (0x30 + d)%N :: to_ascii s'
           | None => [0x3F%N]
           end
  end.

Definition ascii_isspace (c : N) : bool :=
  in_range 0x09 0x0D c || (c =? 0x20)%N.

Definition ascii_digit (c : N) : option Z :=
  if in_range 0x30 0x39 c then Some (Z.of_N (c - 0x30)) else None.

(** Reads digits and underscores; [prev_us] tells that the previous
    character was an underscore.  Returns the value and the rest. *)
Fixpoint scan_digits (acc : Z) (prev_us : bool) (s : str)
  : option (Z * str) :=
  match s with
  | [] => if prev_us then None else Some (acc, [])
  | c :: s' =>
      if (c =? 0x5F)%N
      then if prev_us then None else scan_digits acc true s'
      else match ascii_digit c with
           | Some d => scan_digits (10 * acc + d)%Z false s'
           | None => if prev_us then None else Some (acc, s)
           end
  end.

Definition long_from_string (s : str) : option Z :=
  let s := drop_while ascii_isspace s in
  let '(sign, s) :=
    match s with
    | 0x2B%N :: s' => (1%Z, s')
    | 0x2D%N :: s' => ((-1)%Z, s')
    | _ => (1%Z, s)
    end in
  match s with
  | [] => None
  | c :: _ =>
      match ascii_digit c with
      | None => None
      | Some _ =>
          match scan_digits 0 false s with
          | Some (v, rest) =>
              match drop_while ascii_isspace rest with
              | [] => Some (sign * v)%Z
              | _ => None
              end
          | None => None
          end
      end
  end.

Definition int (s : str) : option Z := long_from_string (to_ascii s).

(** ["%d" % n] *)
Fixpoint uint_codes (d : Decimal.uint) : str :=
  match d with
  | Decimal.Nil => []
  | Decimal.D0 d => 0x30%N :: uint_codes d
  | Decimal.D1 d => 0x31%N :: uint_codes d
  | Decimal.D2 d => 0x32%N :: uint_codes d
  | Decimal.D3 d => 0x33%N :: uint_codes d
  | Decimal.D4 d => 0x34%N :: uint_codes d
  | Decimal.D5 d => 0x35%N :: uint_codes d
  | Decimal.D6 d => 0x36%N :: uint_codes d
  | Decimal.D7 d => 0x37%N :: uint_codes d
  | Decimal.D8 d => 0x38%N :: uint_codes d
  | Decimal.D9 d => 0x39%N :: uint_codes d
  end.

Definition fmt_d (n : Z) : str :=
  match n with
  | Z0 => [0x30%N]
  | Zpos p => uint_codes (Pos.to_uint p)
  | Zneg p => 0x2D%N :: uint_codes (Pos.to_uint p)
  end.

(** ["%s\t%d\n" % (w, n)] *)
Definition fmt_record (w : str) (n : Z) : str :=
  w ++ [0x09%N] ++ fmt_d n ++ [0x0A%N].

(** [re.fullmatch(r"[A-Za-z]+", s)] *)
Definition is_latin (c : N) : bool :=
  in_range 0x41 0x5A c || in_range 0x61 0x7A c.
Definition fullmatch_latin (s : str) : bool :=
  match s with
  | [] => false
  | _ => forallb is_latin s
  end.

(** [s.upper()], on the ASCII letters it is applied to. *)
Definition upper (s : str) : str :=
  (λ c, if in_range 0x61 0x7A c then (c - 0x20)%N else c) <$> s.

(** Neither the first nor the last character is whitespace. *)
Definition trimmed (s : list N) : Prop :=
  (∀ c, head s = Some c → isspace c = false)
  ∧ (∀ c, last s = Some c → isspace c = false).

(** [needle] occurs in [s] as a substring. *)
Fixpoint is_prefix (needle s : str) : bool :=
  match needle, s with
  | [], _ => true
  | _ :: _, [] => false
  | a :: needle', c :: s' => (a =? c)%N && is_prefix needle' s'
  end.
Fixpoint is_infix (needle s : str) : bool :=
  is_prefix needle s ||
  match s with
  | [] => false
  | _ :: s' => is_infix needle s'
  end.

End Py.

(** *** Order-preserving removal of duplicates

    Both the per-title token list and the aggregate are described by the
    distinct elements of a list in order of first appearance: the head
    stays and its later copies go. *)
Module Seq.

Fixpoint first_seen (l : list (list N)) : list (list N) :=
  match l with
  | [] => []
  | x :: l' => x :: filter (λ y, y ≠ x) (first_seen l')
  end.

End Seq.

(** *** mapper.py: the Weight Assigner *)
Module Mapper.
Import Py.

(** [weight = 51 - rank], raised to 1 when below. *)
Definition weight_of_rank (rank : Z) : Z :=
  let weight := (51 - rank)%Z in
  if (weight <? 1)%Z then 1%Z else weight.

(** The [try] block and its [except] branch: the weight and the words
    of a stripped line that holds a comma. *)
Definition weight_and_words (line : str) : Z * str :=
  match split1 0x2C line with
  | [rank_str; words_str] =>
      match int rank_str with
      | Some rank => (weight_of_rank rank, words_str)
      | None => (1%Z, List.last (split1 0x2C line) [])
      end
  | _ => (1%Z, List.last (split1 0x2C line) [])
  end.

(** One iteration of the loop over [sys.stdin]: the strings written. *)
Definition map_line (line : str) : list str :=
  let line := strip line in
  if bool_decide (line = []) || negb (contains 0x2C line) then []
  else
    let '(weight, words_str) := weight_and_words line in
    (λ w, fmt_record w weight) <$>
      filter (λ w, w ≠ []) (split_ws words_str).

Definition mapper (stdin : list str) : list str :=
  stdin ≫= map_line.

End Mapper.

(** *** reducer.py: the Aggregator *)
Module Reducer.
Import Py.

Record state := State { current_word : option str; current_sum : Z }.

Definition init : state := State None 0.

(** The part of the loop body that reads a line: [None] is [continue]. *)
Definition parse_line (line : str) : option (str * Z) :=
  let line := strip line in
  if bool_decide (line = []) then None
  else match split1 0x09 line with
       | [word; cnt_str] =>
           match int cnt_str with
           | Some cnt => Some (word, cnt)
           | None => None
           end
       | _ => None
       end.

(** What is written when the accumulator is flushed. *)
Definition flush (st : state) : list str :=
  match current_word st with
  | Some w => [fmt_record w (current_sum st)]
  | None => []
  end.

(** One iteration: the next state and the strings written. *)
Definition step (st : state) (line : str) : state * list str :=
  match parse_line line with
  | None => (st, [])
  | Some (word, cnt) =>
      if bool_decide (current_word st = Some word)
      then (State (current_word st) (current_sum st + cnt), [])
      else (State (Some word) cnt, flush st)
  end.

Fixpoint run (st : state) (stdin : list str) : list str :=
  match stdin with
  | [] => flush st
  | line :: rest => let '(st', o) := step st line in o ++ run st' rest
  end.

Definition reducer (stdin : list str) : list str := run init stdin.

(** The line written for an aggregated term. *)
Definition render (r : str * Z) : str := fmt_record r.1 r.2.

(** The accumulator as an optional pair. *)
Definition accumulator (st : state) : option (str * Z) :=
  match current_word st with
  | Some w => Some (w, current_sum st)
  | None => None
  end.

(** The same fold on parsed records. *)
Fixpoint reduce_records (cur : option (str * Z)) (recs : list (str * Z))
  : list (str * Z) :=
  match recs with
  | [] => match cur with Some c => [c] | None => [] end
  | (word, cnt) :: rest =>
      match cur with
      | Some (w, s) =>
          if bool_decide (w = word)
          then reduce_records (Some (w, s + cnt)%Z) rest
          else (w, s) :: reduce_records (Some (word, cnt)) rest
      | None => reduce_records (Some (word, cnt)) rest
      end
  end.

(** The specification's aggregate: the parsed records, the distinct
    terms in order of first appearance, and the sum of a term's weights. *)
Definition records (stdin : list str) : list (str * Z) :=
  omap parse_line stdin.

Fixpoint total (t : str) (recs : list (str * Z)) : Z :=
  match recs with
  | [] => 0
  | (w, c) :: rest => ((if bool_decide (w = t) then c else 0) + total t rest)%Z
  end.

Definition aggregate (recs : list (str * Z)) : list (str * Z) :=
  (λ t, (t, total t recs)) <$> Seq.first_seen (recs.*1).

Definition sum_weights (recs : list (str * Z)) : Z :=
  foldr Z.add 0%Z (recs.*2).

(** Equal terms are contiguous. *)
Definition grouped (l : list str) : Prop :=
  ∀ i j k x, i ≤ j ≤ k → l !! i = Some x → l !! k = Some x → l !! j = Some x.

(** The terms the reducer reads: not empty, no tab, no leading
    whitespace. *)
Definition term_ok (w : list N) : Prop :=
  w ≠ [] ∧ (∀ c, head w = Some c → isspace c = false) ∧ 0x09%N ∉ w.

End Reducer.

(** *** segment.py: Cleaner, Normalizer, Token Filter, Phrase Merger *)
Module Segment.
Import Py.

(** The variant table: 爆光 to 曝光, 官宣了 and 官宣啦 to 官宣,
    预告 to 预告片. *)
Definition NORMALIZE_MAP : gmap (list N) (list N) :=
  list_to_map
    [([0x7206; 0x5149], [0x66DD; 0x5149]);
     ([0x5B98; 0x5BA3; 0x4E86], [0x5B98; 0x5BA3]);
     ([0x5B98; 0x5BA3; 0x5566], [0x5B98; 0x5BA3]);
     ([0x9884; 0x544A], [0x9884; 0x544A; 0x7247])]%N.

(** The fixed blacklist, in the order of the source. *)
Definition BAD_WORDS : gset (list N) :=
  list_to_set
    [[0x7C89; 0x4E1D]; [0x611F; 0x52A8]; [0x9884; 0x544A; 0x7247];
     [0x56DE; 0x6536]; [0x4EA7; 0x4E1A; 0x94FE]; [0x6454; 0x5012];
     [0x623F; 0x578B];
     [0x59B9; 0x59B9]; [0x59B9]; [0x59B9; 0x5B50]; [0x5C0F; 0x59B9];
     [0x513F; 0x5B50]; [0x5973; 0x513F]; [0x8001; 0x516C]; [0x8001; 0x5A46];
     [0x59D0; 0x59D0]; [0x59D0]; [0x54E5; 0x54E5]; [0x54E5];
     [0x5988; 0x5988]; [0x5988]; [0x7238; 0x7238]; [0x7238];
     [0x5C0F]; [0x5927]; [0x592A]; [0x5F88]; [0x771F; 0x7684];
     [0x89C9; 0x5F97]; [0x597D; 0x50CF]; [0x4E00; 0x4E2A];
     [0x73B0; 0x573A]; [0x89C6; 0x9891]; [0x7167; 0x7247]; [0x7F51; 0x53CB];
     [0x70ED; 0x641C]; [0x56DE; 0x5E94]; [0x6700; 0x65B0];
     [0x7206; 0x6599]; [0x771F; 0x76F8]; [0x539F; 0x56E0]; [0x7ED3; 0x679C];
     [0x8FDB; 0x5C55]; [0x540E; 0x7EED]; [0x74DC];
     [0x59B9; 0x5C0F]]%N.

(** The alternatives of [KINSHIP_RE]: twelve single characters, then
    儿子, 女儿, 老公, 老婆. *)
Definition KINSHIP_ALTS : list (list N) :=
  [[0x59B9]; [0x59D0]; [0x54E5]; [0x5F1F]; [0x5AC2]; [0x59E8]; [0x53D4];
   [0x8205]; [0x7238]; [0x5988]; [0x7239]; [0x5A18];
   [0x513F; 0x5B50]; [0x5973; 0x513F]; [0x8001; 0x516C]; [0x8001; 0x5A46]]%N.

(** [KINSHIP_RE.search(w)]: some alternative occurs in [w]. *)
Definition KINSHIP_search (w : str) : bool :=
  existsb (λ alt, is_infix alt w) KINSHIP_ALTS.

(** ["n"] and ["v"]. *)
Definition ALLOW_POS_PREFIX : list (list N) := [[0x6E]; [0x76]]%N.
(** ["nr"], ["ns"], ["nt"], ["nz"]. *)
Definition ALLOW_POS_EXACT : gset (list N) :=
  list_to_set [[0x6E; 0x72]; [0x6E; 0x73]; [0x6E; 0x74]; [0x6E; 0x7A]]%N.

(** 妹, 小, 姐, 哥, 儿子, 女儿, 粉丝. *)
Definition BAD_COMPONENT : gset (list N) :=
  list_to_set
    [[0x59B9]; [0x5C0F]; [0x59D0]; [0x54E5]; [0x513F; 0x5B50];
     [0x5973; 0x513F]; [0x7C89; 0x4E1D]]%N.

Definition load_stopwords (file : option str) : gset (list N) :=
  match file with
  | None => ∅
  | Some txt =>
      list_to_set (strip <$> filter (λ w, strip w ≠ []) (splitlines txt))
  end.

(** The class [一-鿿]. *)
Definition is_cjk (c : N) : bool := in_range 0x4E00 0x9FFF c.
(** The class [一-鿿A-Za-z0-9]. *)
Definition is_kept (c : N) : bool :=
  is_cjk c || is_latin c || in_range 0x30 0x39 c.

(** [re.sub(p+, " ", s)] for a character class [p]: every maximal run of
    characters of the class becomes one space.  [in_run] tells that the
    previous character belonged to the class. *)
Fixpoint sub_runs (p : N → bool) (in_run : bool) (s : str) : str :=
  match s with
  | [] => []
  | c :: s' =>
      if p c
      then if in_run then sub_runs p true s'
           else 0x20%N :: sub_runs p true s'
      else c :: sub_runs p false s'
  end.

Definition clean_title (s : str) : str :=
  let s := sub_runs (λ c, negb (is_kept c)) false s in
  strip (sub_runs isspace false s).

Definition normalize_word (w : str) : str :=
  let w := strip w in
  if bool_decide (w = []) then []
  else
    let w := if fullmatch_latin w then upper w else w in
    match NORMALIZE_MAP !! w with
    | Some v => v
    | None => w
    end.

Definition is_bad_token (w : str) (stop_set : gset (list N)) : bool :=
  if bool_decide (w = []) then true
  else if bool_decide (w ∈ stop_set) then true
  else if bool_decide (w ∈ BAD_WORDS) then true
  else if isdigit w then true
  else if fullmatch_latin w && bool_decide (length w < 2) then true
  else if existsb is_cjk w && bool_decide (length w < 2) then true
  else if existsb is_cjk w && bool_decide (10 < length w) then true
  else if KINSHIP_search w && bool_decide (length w ≤ 4) then true
  else false.

Definition allow_by_pos (flag : str) : bool :=
  if bool_decide (flag = []) then false
  else if bool_decide (flag ∈ ALLOW_POS_EXACT) then true
  else existsb (λ p, is_prefix p flag) ALLOW_POS_PREFIX.

(** The test [ok1] / [ok2] of the merging loop. *)
Definition noun_like (f : str) : bool :=
  bool_decide (f ∈ ALLOW_POS_EXACT) || is_prefix [0x6E%N] f
  || bool_decide (f = []).

(** One iteration of the merging loop on the pair at [i] and [i + 1]:
    the phrase appended, if any. *)
Definition merge_pair (stop_set : gset (list N)) (a b : str * str)
  : option str :=
  let '(w1, f1) := a in
  let '(w2, f2) := b in
  if bool_decide (w1 ∈ BAD_COMPONENT) || bool_decide (w2 ∈ BAD_COMPONENT)
  then None
  else if KINSHIP_search w1 || KINSHIP_search w2 then None
  else if negb (noun_like f1 && noun_like f2) then None
  else
    let phrase := normalize_word (w1 ++ w2) in
    if is_bad_token phrase stop_set then None
    else if bool_decide (length phrase < 2) || bool_decide (8 < length phrase)
    then None
    else Some phrase.

Definition phrase_body (stop_set : gset (list N)) (pos_list : list (str * str))
    (phrases : list str) (i : nat) : list str :=
  match pos_list !! i, pos_list !! (i + 1) with
  | Some a, Some b =>
      match merge_pair stop_set a b with
      | Some phrase => phrases ++ [phrase]
      | None => phrases
      end
  | _, _ => phrases
  end.

(** [for i in range(len(pos_list) - 1)] *)
Definition merge_phrases (stop_set : gset (list N))
    (pos_list : list (str * str)) : list str :=
  fold_left (phrase_body stop_set pos_list)
    (seq 0 (length pos_list - 1)) [].

(** The loop with the [seen] set. *)
Definition dedup_body (acc : gset (list N) * list str) (w : str)
  : gset (list N) * list str :=
  if bool_decide (w ∉ acc.1) then ({[w]} ∪ acc.1, acc.2 ++ [w]) else acc.

Definition dedup (merged : list str) : list str :=
  (fold_left dedup_body merged (∅, [])).2.

(** The guards of the two segmentation loops, on the normalized word. *)
Definition pseg_keep (stop_set : gset (list N)) (w flag : str) : bool :=
  if bool_decide (w = []) then false
  else if negb (allow_by_pos flag) then false
  else if is_bad_token w stop_set then false
  else true.

Definition pseg_body (stop_set : gset (list N))
    (acc : list str * list (str * str)) (p : str * str)
  : list str * list (str * str) :=
  let w := normalize_word p.1 in
  if pseg_keep stop_set w p.2
  then (acc.1 ++ [w], acc.2 ++ [(w, p.2)])
  else acc.

Definition lcut_body (stop_set : gset (list N))
    (acc : list str * list (str * str)) (w : str)
  : list str * list (str * str) :=
  let w := normalize_word w in
  if is_bad_token w stop_set then acc
  else (acc.1 ++ [w], acc.2 ++ [(w, [])]).

(** The files [news_raw.txt], [news_seg.txt] and [stopwords.txt]; the user
    dictionary is read by the segmenter alone. *)
Record files := Files { RAW : option str; OUT : option str; STOP : option str }.

Section Segmenter.
(** The external segmenter.  [pseg] is [None] when [jieba.posseg]
    could not be imported, else [pseg.cut(title, HMM=False)] as the
    list of its (word, flag) pairs; [lcut] is
    [jieba.lcut(title, HMM=False)].  Both stand for the segmenter
    after [load_user_dict]. *)
Variable pseg : option (list N → list (list N * list N)).
Variable lcut : list N → list (list N).

(** [tokens] and [pos_list] for a cleaned title. *)
Definition segment (title : str) (stop_set : gset (list N))
  : list str * list (str * str) :=
  match pseg with
  | Some cut => fold_left (pseg_body stop_set) (cut title) ([], [])
  | None => fold_left (lcut_body stop_set) (lcut title) ([], [])
  end.

(** [phrases] and [tokens] of a run of [tokenize]; both empty when the
    title cleans to nothing. *)
Definition phrases_and_tokens (title : str) (stop_set : gset (list N))
  : list str * list str :=
  let title := clean_title title in
  if bool_decide (title = []) then ([], [])
  else
    let '(tokens, pos_list) := segment title stop_set in
    (merge_phrases stop_set pos_list, tokens).

Definition tokenize (title : str) (stop_set : gset (list N)) : list str :=
  let title := clean_title title in
  if bool_decide (title = []) then []
  else
    let '(tokens, pos_list) := segment title stop_set in
    let phrases := merge_phrases stop_set pos_list in
    let merged := phrases ++ tokens in
    take 40 (dedup merged).

(** The body of the loop over the lines of the input file: the output
    line, or [None] for [continue]. *)
Definition seg_line (stop_set : gset (list N)) (line : str) : option str :=
  let line := strip line in
  if bool_decide (line = []) || negb (contains 0x2C line) then None
  else match split1 0x2C line with
       | [rank_str; title] =>
           let rank_str := strip rank_str in
           let title := strip title in
           if negb (isdigit rank_str) then None
           else
             let toks := tokenize title stop_set in
             if bool_decide (toks = []) then None
             else Some (rank_str ++ [0x2C%N] ++ join [0x20%N] toks)
       | _ => None
       end.

Definition out_lines (raw : str) (stop_set : gset (list N)) : list str :=
  omap (seg_line stop_set) (splitlines raw).

(** [main]: the exit status and the files afterwards.  The messages on
    the standard streams are left out. *)
Definition main (fs : files) : Z * files :=
  match RAW fs with
  | None => (1%Z, fs)
  | Some raw =>
      let stop_set := load_stopwords (STOP fs) in
      let out := out_lines raw stop_set in
      if bool_decide (out = []) then (1%Z, fs)
      else (0%Z, Files (RAW fs) (Some (join [0x0A%N] out)) (STOP fs))
  end.
End Segmenter.

(** The specification's wording of the Token Filter: the lexical rules
    1 to 5 all pass ... *)
Definition lexical_ok (stop_set : gset (list N)) (w : str) : Prop :=
  w ≠ [] ∧ (w ∉ stop_set) ∧ (w ∉ BAD_WORDS)
  ∧ isdigit w = false
  ∧ ¬ (fullmatch_latin w = true ∧ length w < 2)
  ∧ (existsb is_cjk w = true → 2 ≤ length w ≤ 10)
  ∧ ¬ (KINSHIP_search w = true ∧ length w ≤ 4).

(** ... and the tag is a proper-noun tag or begins with [n] or [v]. *)
Definition pos_allowed (flag : str) : Prop :=
  flag ∈ ALLOW_POS_EXACT
  ∨ is_prefix [0x6E%N] flag = true ∨ is_prefix [0x76%N] flag = true.

Definition filter_spec (stop_set : gset (list N)) (w flag : str) : Prop :=
  lexical_ok stop_set w ∧ pos_allowed flag.

(** The specification's wording of the Phrase Merger: a tag is empty, a
    proper-noun tag or noun-class ... *)
Definition tag_noun_like (f : str) : Prop :=
  f = [] ∨ f ∈ ALLOW_POS_EXACT ∨ is_prefix [0x6E%N] f = true.

(** ... and a pair merges when no token is a dangerous component or a
    kinship match, both tags are noun-like, and the normalized
    concatenation passes rules 1 to 5 with a length from 2 to 8. *)
Definition merge_spec (stop_set : gset (list N)) (w1 f1 w2 f2 : str) : Prop :=
  (w1 ∉ BAD_COMPONENT) ∧ (w2 ∉ BAD_COMPONENT)
  ∧ KINSHIP_search w1 = false ∧ KINSHIP_search w2 = false
  ∧ tag_noun_like f1 ∧ tag_noun_like f2
  ∧ lexical_ok stop_set (normalize_word (w1 ++ w2))
  ∧ 2 ≤ length (normalize_word (w1 ++ w2)) ≤ 8.

(** Closed forms of the two segmentation loops. *)
Definition pseg_kept (stop : gset (list N)) (l : list (list N * list N))
  : list (list N * list N) :=
  filter (λ p, pseg_keep stop p.1 p.2 = true)
    ((λ p, (normalize_word p.1, p.2)) <$> l).

Definition lcut_kept (stop : gset (list N)) (l : list (list N))
  : list (list N) :=
  filter (λ w, is_bad_token w stop = false) (normalize_word <$> l).

(** The (word, tag) pairs the two segmentation loops go through: the pairs
    of [pseg.cut], or the words of [jieba.lcut], each with the empty tag
    that the fallback loop records for it. *)
Definition tagged_words (pseg : option (list N → list (list N * list N)))
    (lcut : list N → list (list N)) (title : list N)
  : list (list N * list N) :=
  match pseg with
  | Some cut => cut title
  | None => (λ w, (w, [])) <$> lcut title
  end.

(** The part-of-speech backend gives every word a tag. *)
Definition tags_nonempty (pseg : option (list N → list (list N * list N)))
  : Prop :=
  ∀ cut title w f, pseg = Some cut → (w, f) ∈ cut title → f ≠ [].

(** The stop words of a list of lines. *)
Definition stop_words (lines : list (list N)) : gset (list N) :=
  list_to_set (strip <$> filter (λ w, strip w ≠ []) lines).

(** What the Normalizer returns: stripped, and upper case when purely
    Latin. *)
Definition canonical (w : list N) : Prop :=
  trimmed w ∧ (fullmatch_latin w = true → upper w = w).

(** The phrases of the adjacent pairs, by starting position. *)
Fixpoint phrases_in_order (stop_set : gset (list N))
    (pos_list : list (str * str)) : list str :=
  match pos_list with
  | a :: ((b :: _) as rest) =>
      match merge_pair stop_set a b with
      | Some phrase => phrase :: phrases_in_order stop_set rest
      | None => phrases_in_order stop_set rest
      end
  | _ => []
  end.

(** Sample data: 华为, 手机, and a segmenter that tags them [nz] and [n]. *)
Definition huawei : list N := [0x534E; 0x4E3A]%N.
Definition shouji : list N := [0x624B; 0x673A]%N.
Definition sample_cut : list N → list (list N * list N) :=
  λ _, [(huawei, [0x6E; 0x7A]%N); (shouji, [0x6E]%N)].

(** A batch whose titles are pure punctuation: [1,!!!] and [2,。?]. *)
Definition punct_files : files :=
  Files (Some [0x31; 0x2C; 0x21; 0x21; 0x21; 0x0A; 0x32; 0x2C; 0x3002; 0x3F]%N)
        None None.

End Segment.

(** *** web/app.py: the Top-N Selector *)
Module Web.
Import Py.

(** The dictionary [{"word": w, "count": c}]. *)
Record entry := Entry { word : str; count : Z }.

Definition parse_entry (line : str) : option entry :=
  if negb (contains 0x09 line) then None
  else match split1 0x09 line with
       | [w; c] =>
           match int c with
           | Some c => Some (Entry w c)
           | None => None
           end
       | _ => None
       end.

(** [data.sort(key=lambda x: x["count"], reverse=True)]: a stable sort
    in descending order of the key; entries with equal keys keep their
    order. *)
Fixpoint insert_desc (x : entry) (l : list entry) : list entry :=
  match l with
  | [] => [x]
  | y :: l' =>
      if (count x <? count y)%Z then y :: insert_desc x l' else x :: l
  end.

Definition sort_desc (data : list entry) : list entry :=
  foldr insert_desc [] data.

Definition parsed (txt : str) : list entry :=
  omap parse_entry (splitlines txt).

Definition parse_top20 (file : option str) : list entry :=
  match file with
  | None => []
  | Some txt => take 20 (sort_desc (parsed txt))
  end.

(** Descending order of weight. *)
Definition desc (a b : entry) : Prop := (count b ≤ count a)%Z.

End Web.

(** *** Shapes of text and of record lists used in the statements *)
Module Shapes.
Import Py Segment.

(** No two neighbouring characters are both spaces. *)
Fixpoint single_spaced (l : list N) : Prop :=
  match l with
  | x :: (y :: _) as rest => ¬ (x = 0x20%N ∧ y = 0x20%N) ∧ single_spaced rest
  | _ => True
  end.

(** Cleaned text: ideographs, Latin letters, digits and single spaces, no
    space at either end. *)
Definition cleaned (s : list N) : Prop :=
  Forall (λ c, is_kept c = true ∨ c = 0x20%N) s
  ∧ single_spaced s ∧ trimmed s.

(** Neighbouring records have different terms. *)
Fixpoint distinct_neighbours (l : list (list N * Z)) : Prop :=
  match l with
  | a :: (b :: _) as rest => a.1 ≠ b.1 ∧ distinct_neighbours rest
  | _ => True
  end.

End Shapes.

Module Fetch.
Import Py.

(** [save_hot]: the text written to [news_raw.txt], one line
    [f"{i},{title}\n"] per title, [i] counting from 1. *)
Definition save_hot (titles : list (list N)) : list N :=
  concat (imap (λ i title,
                  fmt_d (Z.of_nat (S i)) ++ [0x2C%N] ++ title ++ [0x0A%N])
               titles).

(** One line of [news_raw.txt], without its line feed. *)
Definition saved_line (i : nat) (title : list N) : list N :=
  fmt_d (Z.of_nat (S i)) ++ 0x2C%N :: title.

End Fetch.

(** ** Part II. Theorems *)

(** *** Facts about the built-ins *)
Module PyFacts.
Import Py.

Lemma partition_at_Some sep s a b :
  partition_at sep s = Some (a, b) → s = a ++ sep :: b ∧ sep ∉ a.
Proof.
  revert a b. induction s as [|c s IH]; intros a b; simpl; [done|].
  destruct (N.eqb_spec c sep) as [->|Hne].
  - intros [= <- <-]. split; [done|]. apply not_elem_of_nil.
  - destruct (partition_at sep s) as [[a' b']|]; [|done].
    intros [= <- <-]. destruct (IH a' b' eq_refl) as [-> Hni].
    split; [done|]. rewrite elem_of_cons. intros [?|?]; congruence.
Qed.

Lemma partition_at_app sep a b :
  sep ∉ a → partition_at sep (a ++ sep :: b) = Some (a, b).
Proof.
  induction a as [|c a IH]; simpl; intros Hni.
  - by rewrite N.eqb_refl.
  - rewrite not_elem_of_cons in Hni. destruct Hni as [Hc Ha].
    destruct (N.eqb_spec c sep) as [->|_]; [done|]. by rewrite IH.
Qed.

Lemma partition_at_None sep s : partition_at sep s = None ↔ sep ∉ s.
Proof.
  induction s as [|c s IH]; simpl.
  - split; [intros _; apply not_elem_of_nil | done].
  - rewrite not_elem_of_cons. destruct (N.eqb_spec c sep) as [->|Hne].
    + split; [done | intros [? _]; done].
    + destruct (partition_at sep s) as [[a b]|].
      * split; [done|]. intros [_ Hs]. by apply IH in Hs.
      * split; [|done]. intros _. split; [congruence | by apply IH].
Qed.

Lemma contains_partition sep s a b :
  partition_at sep s = Some (a, b) → contains sep s = true.
Proof.
  intros H. unfold contains. apply bool_decide_eq_true.
  destruct (decide (sep ∈ s)) as [|Hn]; [done|].
  apply partition_at_None in Hn. congruence.
Qed.

Lemma contains_false sep s :
  contains sep s = false ↔ partition_at sep s = None.
Proof.
  unfold contains. rewrite bool_decide_eq_false. symmetry.
  apply partition_at_None.
Qed.

(** [split()] yields no empty token. *)
Lemma split_ws_aux_nonempty cur s :
  Forall (λ w, w ≠ []) (split_ws_aux cur s).
Proof.
  revert cur. induction s as [|c s IH]; intros cur; simpl.
  - destruct cur as [|x cur]; [constructor|].
    repeat constructor. intros H%(f_equal length).
    rewrite length_reverse in H. done.
  - destruct (isspace c); [|apply IH].
    destruct cur as [|x cur]; [apply IH|].
    constructor; [|apply IH]. intros H%(f_equal length).
    rewrite length_reverse in H. done.
Qed.

Lemma split_ws_nonempty s : Forall (λ w, w ≠ []) (split_ws s).
Proof. apply split_ws_aux_nonempty. Qed.

(** ... and no token holds whitespace. *)
Lemma split_ws_aux_nospace cur s :
  Forall (λ c, isspace c = false) cur →
  Forall (Forall (λ c, isspace c = false)) (split_ws_aux cur s).
Proof.
  revert cur. induction s as [|c s IH]; intros cur Hcur; simpl.
  - destruct cur as [|x cur]; repeat constructor.
    by apply Forall_reverse.
  - destruct (isspace c) eqn:Hc.
    + destruct cur as [|x cur]; [by apply IH|].
      constructor; [by apply Forall_reverse | by apply IH].
    + apply IH. by constructor.
Qed.

Lemma split_ws_nospace s :
  Forall (Forall (λ c, isspace c = false)) (split_ws s).
Proof. by apply split_ws_aux_nospace. Qed.

(** The three equations that determine [split()]: whitespace separates,
    and a run without whitespace is one token. *)
Lemma split_ws_aux_app cur a c b :
  isspace c = true →
  split_ws_aux cur (a ++ c :: b) = split_ws_aux cur a ++ split_ws b.
Proof.
  intros Hc. revert cur. induction a as [|x a IH]; intros cur; simpl.
  - rewrite Hc. by destruct cur.
  - destruct (isspace x); [|apply IH].
    destruct cur; rewrite IH; done.
Qed.

Lemma split_ws_app a c b :
  isspace c = true → split_ws (a ++ c :: b) = split_ws a ++ split_ws b.
Proof. apply split_ws_aux_app. Qed.

Lemma split_ws_aux_word cur t :
  Forall (λ c, isspace c = false) t → reverse cur ++ t ≠ [] →
  split_ws_aux cur t = [reverse cur ++ t].
Proof.
  revert cur. induction t as [|c t IH]; intros cur Ht Hne; simpl.
  - rewrite app_nil_r in *. destruct cur; [done|]. done.
  - inversion_clear Ht as [|?? Hc Ht']. rewrite Hc.
    rewrite IH; [|done|]; rewrite reverse_cons, <- app_assoc; [done|].
    intros H%(f_equal length). rewrite !length_app in H. simpl in H. lia.
Qed.

Lemma split_ws_word t :
  Forall (λ c, isspace c = false) t → t ≠ [] → split_ws t = [t].
Proof. intros Ht Hne. by apply (split_ws_aux_word []). Qed.

Lemma filter_nonempty_split_ws s :
  filter (λ w, w ≠ []) (split_ws s) = split_ws s.
Proof.
  pose proof (split_ws_nonempty s) as H.
  induction H as [|w l Hw _ IH]; [done|].
  rewrite filter_cons_True by done. by rewrite IH.
Qed.

(** Stripping. *)
Lemma drop_while_head p s c : head (drop_while p s) = Some c → p c = false.
Proof.
  induction s as [|x s IH]; simpl; [done|].
  destruct (p x) eqn:Hx; [done|]. by intros [= <-].
Qed.

Lemma drop_while_id p s :
  (∀ c, head s = Some c → p c = false) → drop_while p s = s.
Proof. destruct s as [|x s]; simpl; [done|]. intros H. by rewrite H. Qed.

Lemma drop_while_suffix p s : ∃ k, s = k ++ drop_while p s.
Proof.
  induction s as [|x s [k IH]]; simpl; [by exists []|].
  destruct (p x); [|by exists []]. exists (x :: k). simpl. by f_equal.
Qed.

Lemma strip_trimmed s : trimmed (strip s).
Proof.
  unfold strip, rstrip, lstrip.
  destruct (drop_while_suffix isspace (reverse (drop_while isspace s)))
    as [k Hk].
  apply (f_equal reverse) in Hk.
  rewrite reverse_involutive, reverse_app in Hk.
  split; intros c Hc.
  - apply (drop_while_head isspace s). rewrite Hk, head_app. by rewrite Hc.
  - rewrite last_reverse in Hc. by apply drop_while_head in Hc.
Qed.

Lemma trimmed_strip s : trimmed s → strip s = s.
Proof.
  intros [Hh Hl]. unfold strip, rstrip, lstrip.
  rewrite (drop_while_id _ s) by done.
  rewrite drop_while_id; [apply reverse_involutive|].
  intros c. rewrite head_reverse. apply Hl.
Qed.

Lemma trimmed_app a b : trimmed a → trimmed b → trimmed (a ++ b).
Proof.
  intros [Ha1 Ha2] [Hb1 Hb2]. split; intros c.
  - rewrite head_app. destruct (head a) as [y|]; [|apply Hb1].
    intros [= <-]. by apply Ha1.
  - rewrite last_app. destruct (last b) as [y|]; [|apply Ha2].
    intros [= <-]. by apply Hb2.
Qed.

Lemma trimmed_nospace s : Forall (λ c, isspace c = false) s → trimmed s.
Proof.
  rewrite Forall_forall. intros H.
  split; intros c Hc; apply H;
    [by apply head_Some_elem_of | by apply last_Some_elem_of].
Qed.

Lemma in_range_spec lo hi c : in_range lo hi c = true ↔ (lo ≤ c ∧ c ≤ hi)%N.
Proof. unfold in_range. rewrite andb_true_iff, !N.leb_le. done. Qed.

Lemma is_latin_nospace c : is_latin c = true → isspace c = false.
Proof.
  unfold is_latin, isspace. rewrite orb_true_iff, !in_range_spec.
  intros H. repeat (apply orb_false_iff; split);
    first [apply N.eqb_neq | apply not_true_iff_false; rewrite in_range_spec];
    lia.
Qed.

Lemma upper_char_latin c :
  is_latin c = true →
  is_latin (if in_range 0x61 0x7A c then (c - 0x20)%N else c) = true.
Proof.
  destruct (in_range 0x61 0x7A c) eqn:Hc; [|done]. intros _.
  apply in_range_spec in Hc. unfold is_latin.
  apply orb_true_iff. left. apply in_range_spec. lia.
Qed.

Lemma upper_idemp s : upper (upper s) = upper s.
Proof.
  unfold upper. rewrite <- list_fmap_compose. apply list_fmap_ext.
  intros _ c _. simpl.
  destruct (in_range 0x61 0x7A c) eqn:Hc; [|by rewrite Hc].
  apply in_range_spec in Hc.
  destruct (in_range 0x61 0x7A (c - 0x20)) eqn:Hc'; [|done].
  apply in_range_spec in Hc'. lia.
Qed.

Lemma fullmatch_latin_forall s :
  fullmatch_latin s = true ↔ s ≠ [] ∧ Forall (λ c, is_latin c = true) s.
Proof.
  unfold fullmatch_latin. destruct s as [|c s]; [split; [done | by intros [? _]]|].
  rewrite forallb_forall, Forall_forall.
  split.
  - intros H. split; [done|]. intros x Hx. by apply H, list_elem_of_In.
  - intros [_ H] x Hx. by apply H, list_elem_of_In.
Qed.

(** Writing an integer with [%d] and reading it back with [int]. *)
Lemma scan_digits_uint_acc d acc :
  scan_digits (Z.pos acc) false (uint_codes d)
  = Some (Z.pos (Pos.of_uint_acc d acc), []).
Proof.
  revert acc. induction d; intros acc; [done|..];
    cbn [uint_codes scan_digits Pos.of_uint_acc];
    rewrite <- IHd; cbn -[Z.mul Z.add Pos.mul Pos.add scan_digits];
    f_equal; lia.
Qed.

Lemma scan_digits_uint d :
  scan_digits 0 false (uint_codes d) = Some (Z.of_N (Pos.of_uint d), []).
Proof.
  induction d; [done|..]; cbn [uint_codes scan_digits Pos.of_uint];
    first [exact IHd | apply (scan_digits_uint_acc d)].
Qed.

Lemma uint_codes_ascii d : Forall (λ c, (c <? 127)%N = true) (uint_codes d).
Proof. induction d; simpl; by constructor. Qed.

Lemma to_ascii_id s : Forall (λ c, (c <? 127)%N = true) s → to_ascii s = s.
Proof.
  induction 1 as [|c s Hc _ IH]; [done|]. simpl. by rewrite Hc, IH.
Qed.

Lemma long_from_string_uint p :
  long_from_string (uint_codes (Pos.to_uint p)) = Some (Z.pos p).
Proof.
  pose proof (scan_digits_uint (Pos.to_uint p)) as Hs.
  rewrite Unsigned.of_to in Hs. cbn [Z.of_N] in Hs.
  unfold long_from_string.
  destruct (Pos.to_uint p) as [|d|d|d|d|d|d|d|d|d|d]; [discriminate|..];
    cbn [uint_codes] in *; cbn [drop_while ascii_isspace in_range]; cbn;
    cbn in Hs; rewrite Hs; cbn; done.
Qed.

Lemma int_fmt_d n : int (fmt_d n) = Some n.
Proof.
  unfold int. destruct n as [|p|p]; [done|..]; cbn [fmt_d].
  - rewrite to_ascii_id by apply uint_codes_ascii. apply long_from_string_uint.
  - rewrite to_ascii_id by (constructor; [done | apply uint_codes_ascii]).
    pose proof (long_from_string_uint p) as Hp.
    unfold long_from_string in *.
    replace (drop_while ascii_isspace (0x2D%N :: uint_codes (Pos.to_uint p)))
      with (0x2D%N :: uint_codes (Pos.to_uint p)) by done.
    destruct (Pos.to_uint p) as [|d|d|d|d|d|d|d|d|d|d]; [discriminate|..];
      cbn [uint_codes] in *; cbn in Hp; cbn;
      destruct (scan_digits _ _ _) as [[v rest]|]; try discriminate;
      destruct (drop_while ascii_isspace rest); try discriminate;
      injection Hp as Hp; f_equal; lia.
Qed.

Lemma uint_codes_nospace d : Forall (λ c, isspace c = false) (uint_codes d).
Proof. induction d; simpl; by constructor. Qed.

Lemma fmt_d_nospace n : Forall (λ c, isspace c = false) (fmt_d n).
Proof.
  destruct n; simpl; [by repeat constructor | apply uint_codes_nospace|].
  constructor; [done | apply uint_codes_nospace].
Qed.

Lemma fmt_d_nonempty n : fmt_d n ≠ [].
Proof.
  intros H. pose proof (int_fmt_d n) as Hi. rewrite H in Hi. done.
Qed.

(** A trailing whitespace character after trimmed text is stripped. *)
Lemma strip_snoc_space s c :
  trimmed s → s ≠ [] → isspace c = true → strip (s ++ [c]) = s.
Proof.
  intros [Hh Hl] Hne Hc. unfold strip, lstrip, rstrip.
  rewrite (drop_while_id _ (s ++ [c])).
  - rewrite reverse_snoc. simpl. rewrite Hc.
    rewrite drop_while_id; [apply reverse_involutive|].
    intros x. rewrite head_reverse. apply Hl.
  - intros x. destruct s; [done|]. apply Hh.
Qed.

End PyFacts.

(** *** Facts about [first_seen] *)
Module SeqFacts.
Import Seq.

(** [first_seen] keeps each element once. *)
Lemma elem_of_first_seen x l : x ∈ first_seen l ↔ x ∈ l.
Proof.
  induction l as [|y l IH]; simpl; [done|].
  rewrite !elem_of_cons, list_elem_of_filter, IH.
  destruct (decide (x = y)); intuition congruence.
Qed.

Lemma NoDup_first_seen l : NoDup (first_seen l).
Proof.
  induction l as [|y l IH]; simpl; [constructor|].
  apply NoDup_cons. split; [|by apply NoDup_filter].
  rewrite list_elem_of_filter. tauto.
Qed.

Lemma filter_ne_id (x : list N) (l : list (list N)) :
  x ∉ l → filter (λ y, y ≠ x) l = l.
Proof.
  induction l as [|y l IH]; [done|].
  rewrite not_elem_of_cons. intros [Hxy Hl].
  rewrite filter_cons_True by congruence. by rewrite IH.
Qed.

Lemma filter_ne_twice (x : list N) (l : list (list N)) :
  filter (λ y, y ≠ x) (filter (λ y, y ≠ x) l) = filter (λ y, y ≠ x) l.
Proof. apply filter_ne_id. rewrite list_elem_of_filter. tauto. Qed.

Lemma filter_ne_comm (P : list N → Prop) `{!∀ x, Decision (P x)}
    (x : list N) (l : list (list N)) :
  filter P (filter (λ y, y ≠ x) l) = filter (λ y, y ≠ x) (filter P l).
Proof.
  rewrite !list_filter_filter. apply list_filter_iff. intros y. tauto.
Qed.

(** [first_seen] commutes with filtering. *)
Lemma first_seen_filter (P : list N → Prop) `{!∀ x, Decision (P x)}
    (l : list (list N)) :
  first_seen (filter P l) = filter P (first_seen l).
Proof.
  induction l as [|x l IH]; [done|]. cbn [first_seen].
  destruct (decide (P x)) as [Hx|Hx].
  - rewrite !filter_cons_True by done. cbn [first_seen].
    by rewrite IH, filter_ne_comm.
  - rewrite !filter_cons_False by done.
    rewrite filter_ne_comm, <- IH. symmetry. apply filter_ne_id.
    rewrite elem_of_first_seen, list_elem_of_filter. tauto.
Qed.

Lemma first_seen_app (a b : list (list N)) :
  first_seen (a ++ b) = first_seen a ++ filter (λ y, y ∉ a) (first_seen b).
Proof.
  induction a as [|x a IH].
  - simpl. symmetry. induction (first_seen b) as [|y l IHl]; [done|].
    rewrite filter_cons_True by apply not_elem_of_nil. by rewrite IHl.
  - cbn [app first_seen]. rewrite IH, filter_app. f_equal. f_equal.
    rewrite list_filter_filter. apply list_filter_iff. intros y.
    rewrite not_elem_of_cons. tauto.
Qed.

Lemma first_seen_NoDup l : NoDup l → first_seen l = l.
Proof.
  induction 1 as [|x l Hx _ IH]; [done|]. cbn [first_seen].
  by rewrite IH, filter_ne_id.
Qed.

End SeqFacts.

(** *** The Weight Assigner *)
Module MapperSpec.
Import Py Mapper PyFacts.

Lemma weight_of_rank_max r : weight_of_rank r = Z.max 1 (51 - r).
Proof. unfold weight_of_rank. destruct (Z.ltb_spec (51 - r) 1); lia. Qed.

Lemma map_line_comma line rank_str words_str :
  partition_at 0x2C (strip line) = Some (rank_str, words_str) →
  map_line line =
    (λ w, fmt_record w (weight_and_words (strip line)).1) <$>
      split_ws (weight_and_words (strip line)).2.
Proof.
  intros Hp. unfold map_line.
  rewrite (contains_partition _ _ _ _ Hp).
  destruct (strip line) as [|c l] eqn:Hl; [done|].
  rewrite bool_decide_eq_false_2 by done. simpl.
  destruct (weight_and_words (c :: l)) as [weight words].
  by rewrite filter_nonempty_split_ws.
Qed.

(** C1. A line [rank,tokens] whose rank reads as an integer [r >= 1]
    yields one record [token TAB w] per whitespace-delimited token, in
    order, with [w = max(1, 51 - r)]; a token is never empty and holds
    no whitespace; the weight is 50 at rank 1, 1 at rank 50 and 1 at
    every rank above 50. *)
Theorem C1_mapper_weight (line rank_str words_str : list N) (r : Z) :
  partition_at 0x2C (strip line) = Some (rank_str, words_str) →
  int rank_str = Some r →
  (1 ≤ r)%Z →
  map_line line =
    (λ w, fmt_record w (Z.max 1 (51 - r))) <$> split_ws words_str
  ∧ Forall (λ w, w ≠ [] ∧ Forall (λ c, isspace c = false) w)
      (split_ws words_str)
  ∧ (r = 1%Z → Z.max 1 (51 - r) = 50%Z)
  ∧ (r = 50%Z → Z.max 1 (51 - r) = 1%Z)
  ∧ ((50 < r)%Z → Z.max 1 (51 - r) = 1%Z).
Proof.
  intros Hp Hint Hr. split; [|split; [|lia]].
  - rewrite (map_line_comma _ _ _ Hp). unfold weight_and_words, split1.
    rewrite Hp, Hint. simpl. by rewrite weight_of_rank_max.
  - apply Forall_and. split; [apply split_ws_nonempty | apply split_ws_nospace].
Qed.

(** The line [1,a b] carries weight 50 on both tokens. *)
Lemma C1_mapper_weight_witness :
  let line := [0x31; 0x2C; 0x61; 0x20; 0x62; 0x0A]%N in
  partition_at 0x2C (strip line) = Some ([0x31]%N, [0x61; 0x20; 0x62]%N)
  ∧ int [0x31]%N = Some 1%Z
  ∧ map_line line =
      [[0x61; 0x09; 0x35; 0x30; 0x0A]; [0x62; 0x09; 0x35; 0x30; 0x0A]]%N.
Proof.
  split; [reflexivity|]. split; [reflexivity|].
  exact (proj1 (C1_mapper_weight
    [0x31; 0x2C; 0x61; 0x20; 0x62; 0x0A]%N [0x31]%N [0x61; 0x20; 0x62]%N 1%Z
    eq_refl eq_refl ltac:(lia))).
Defined.

(** C7, as the code has it. A line with a comma whose rank field does not
    read as an integer gets weight 1 and still yields one record per
    whitespace-delimited token of the text after the first comma.  A rank
    field that reads as an integer below 1 does not take the fallback: its
    weight is [51 - r]. *)
Theorem C7_mapper_unreadable_rank (line rank_str words_str : list N) :
  partition_at 0x2C (strip line) = Some (rank_str, words_str) →
  (int rank_str = None →
   map_line line = (λ w, fmt_record w 1) <$> split_ws words_str)
  ∧ (∀ r, int rank_str = Some r → (r < 1)%Z →
     map_line line = (λ w, fmt_record w (51 - r)) <$> split_ws words_str).
Proof.
  intros Hp. rewrite (map_line_comma _ _ _ Hp).
  unfold weight_and_words, split1. rewrite Hp. split.
  - by intros ->.
  - intros r -> Hr. simpl. rewrite weight_of_rank_max.
    by replace (Z.max 1 (51 - r)) with (51 - r)%Z by lia.
Qed.

(** The line [x,c]. *)
Lemma C7_mapper_unreadable_rank_witness :
  let line := [0x78; 0x2C; 0x63]%N in
  partition_at 0x2C (strip line) = Some ([0x78]%N, [0x63]%N)
  ∧ int [0x78]%N = None
  ∧ map_line line = [[0x63; 0x09; 0x31; 0x0A]]%N.
Proof.
  split; [reflexivity|]. split; [reflexivity|].
  exact (proj1 (C7_mapper_unreadable_rank [0x78; 0x2C; 0x63]%N [0x78]%N
                  [0x63]%N eq_refl) eq_refl).
Defined.

(** C7 as stated fails: the rank field of [0,c] reads as the integer 0,
    which is not a positive integer, and the record carries weight 51. *)
Lemma C7_counterexample :
  let line := [0x30; 0x2C; 0x63]%N in
  partition_at 0x2C (strip line) = Some ([0x30]%N, [0x63]%N)
  ∧ int [0x30]%N = Some 0%Z
  ∧ ¬ (1 ≤ 0)%Z
  ∧ map_line line = [fmt_record [0x63]%N 51]
  ∧ map_line line ≠ (λ w, fmt_record w 1) <$> split_ws [0x63]%N.
Proof.
  split; [reflexivity|]. split; [reflexivity|]. split; [lia|].
  split; [reflexivity|]. vm_compute. discriminate.
Qed.

End MapperSpec.

(** *** The Aggregator *)
Module ReducerSpec.
Import Py Seq Reducer PyFacts SeqFacts.

Lemma parse_line_Some line w n :
  parse_line line = Some (w, n) ↔
  ∃ c, partition_at 0x09 (strip line) = Some (w, c) ∧ int c = Some n.
Proof.
  unfold parse_line, split1. case_bool_decide as Hl.
  - rewrite Hl. simpl. split; [done | intros (c & ? & _); done].
  - destruct (partition_at 0x09 (strip line)) as [[a b]|].
    + destruct (int b) as [m|] eqn:Hb.
      * split; [intros [= <- <-]; eauto | intros (c & [= <- <-] & ?); congruence].
      * split; [done | intros (c & [= <- <-] & ?); congruence].
    + split; [done | intros (c & ? & _); done].
Qed.

(** The loop over lines is the fold over the parsed records. *)
Lemma run_reduce_records st stdin :
  run st stdin = render <$> reduce_records (accumulator st) (records stdin).
Proof.
  revert st. induction stdin as [|line rest IH]; intros [cw cs].
  - by destruct cw.
  - unfold records. simpl. unfold step.
    destruct (parse_line line) as [[word cnt]|]; simpl; [|apply IH].
    destruct cw as [w|]; simpl.
    + case_bool_decide as Hw.
      * rewrite bool_decide_eq_true_2 by congruence. simpl. apply IH.
      * rewrite bool_decide_eq_false_2 by congruence. simpl.
        f_equal. apply IH.
    + apply IH.
Qed.

Lemma reducer_reduce_records stdin :
  reducer stdin = render <$> reduce_records None (records stdin).
Proof. apply run_reduce_records. Qed.

(** Weight is conserved by the fold, grouped input or not. *)
Lemma sum_weights_reduce_records cur recs :
  sum_weights (reduce_records cur recs) =
  (from_option snd 0 cur + sum_weights recs)%Z.
Proof.
  unfold sum_weights. revert cur.
  induction recs as [|[word cnt] rest IH]; intros cur; csimpl.
  - destruct cur as [[w s]|]; csimpl; lia.
  - destruct cur as [[w s]|]; csimpl.
    + case_bool_decide; csimpl; rewrite IH; csimpl; lia.
    + rewrite IH. csimpl. lia.
Qed.

Lemma total_not_in t recs : t ∉ recs.*1 → total t recs = 0%Z.
Proof.
  induction recs as [|[w c] rest IH]; simpl; [done|].
  rewrite not_elem_of_cons. intros [Hne Hni].
  rewrite bool_decide_eq_false_2 by congruence. rewrite IH by done. lia.
Qed.

Lemma grouped_tail x l : grouped (x :: l) → grouped l.
Proof.
  intros H i j k y Hle Hi Hk.
  apply (H (S i) (S j) (S k) y); [lia|done|done].
Qed.

Lemma grouped_change x y l : grouped (x :: y :: l) → x ≠ y → x ∉ y :: l.
Proof.
  intros H Hne [k Hk]%list_elem_of_lookup.
  assert ((x :: y :: l) !! 1 = Some x) as Hx.
  { apply (H 0 1 (S k) x); [lia|done|done]. }
  simpl in Hx. congruence.
Qed.

Lemma aggregate_cons w s recs :
  aggregate ((w, s) :: recs) =
  (w, (s + total w recs)%Z) ::
    ((λ t, (t, total t ((w, s) :: recs))) <$>
       filter (λ y, y ≠ w) (first_seen (recs.*1))).
Proof.
  unfold aggregate. rewrite fmap_cons. cbn [first_seen fst].
  rewrite fmap_cons. cbn [total].
  by rewrite bool_decide_eq_true_2 by done.
Qed.

Lemma total_cons t w s recs :
  total t ((w, s) :: recs) =
  ((if bool_decide (w = t) then s else 0) + total t recs)%Z.
Proof. done. Qed.

(** A term that does not come back starts the aggregate ... *)
Lemma aggregate_cons_fresh w s recs :
  w ∉ recs.*1 → aggregate ((w, s) :: recs) = (w, s) :: aggregate recs.
Proof.
  intros Hni. rewrite aggregate_cons, total_not_in, Z.add_0_r by done.
  rewrite filter_ne_id
    by (intros H; apply Hni; exact (proj1 (elem_of_first_seen _ _) H)).
  f_equal. unfold aggregate. apply Forall_fmap_ext, Forall_forall.
  intros t Ht. apply (proj1 (elem_of_first_seen _ _)) in Ht.
  rewrite total_cons.
  rewrite bool_decide_eq_false_2 by (intros ->; exact (Hni Ht)).
  done.
Qed.

(** ... and two records of one term count as their sum. *)
Lemma aggregate_cons_same w s c recs :
  aggregate ((w, s) :: (w, c) :: recs) = aggregate ((w, s + c)%Z :: recs).
Proof.
  rewrite !aggregate_cons. rewrite fmap_cons. cbn [first_seen fst].
  rewrite filter_cons_False by (by intros ?).
  rewrite filter_ne_twice, total_cons, bool_decide_eq_true_2 by done.
  f_equal; [f_equal; lia|].
  apply list_fmap_ext. intros _ t _. rewrite !total_cons.
  f_equal. case_bool_decide; lia.
Qed.

(** On grouped input the fold computes the aggregate. *)
Lemma reduce_records_grouped recs w s :
  grouped (w :: recs.*1) →
  reduce_records (Some (w, s)) recs = aggregate ((w, s) :: recs).
Proof.
  revert w s. induction recs as [|[word cnt] rest IH]; intros w s Hg.
  - by rewrite aggregate_cons_fresh by apply not_elem_of_nil.
  - rewrite fmap_cons in Hg. cbn [fst] in Hg.
    cbn [reduce_records]. case_bool_decide as Hw.
    + subst word. rewrite aggregate_cons_same.
      apply IH. by apply grouped_tail in Hg.
    + rewrite (aggregate_cons_fresh w).
      * f_equal. apply IH. by apply grouped_tail in Hg.
      * rewrite fmap_cons. by apply grouped_change.
Qed.

(** An input sorted by any antisymmetric order on terms is grouped. *)
Lemma StronglySorted_lookup (R : relation (list N)) l i j a b :
  StronglySorted R l → i < j → l !! i = Some a → l !! j = Some b → R a b.
Proof.
  intros Hs. revert i j. induction Hs as [|x l Hs IH Hall]; intros i j Hij Hi Hj.
  - done.
  - destruct j as [|j]; [lia|]. simpl in Hj. destruct i as [|i].
    + simpl in Hi. injection Hi as ->.
      rewrite Forall_forall in Hall. apply Hall.
      by eapply list_elem_of_lookup_2.
    + simpl in Hi. apply (IH i j); [lia|done|done].
Qed.

Lemma sorted_grouped (R : relation (list N)) `{!AntiSymm (=) R} l :
  StronglySorted R l → grouped l.
Proof.
  intros Hs i j k x Hle Hi Hk.
  destruct (decide (i = j)) as [->|]; [done|].
  destruct (decide (j = k)) as [->|]; [done|].
  destruct (l !! j) as [y|] eqn:Hj.
  - f_equal. apply (anti_symm R).
    + apply (StronglySorted_lookup R l j k); [done|lia|done|done].
    + apply (StronglySorted_lookup R l i j); [done|lia|done|done].
  - apply lookup_ge_None in Hj. apply lookup_lt_Some in Hk. lia.
Qed.

Lemma parse_line_term line w n : parse_line line = Some (w, n) → term_ok w.
Proof.
  intros (c & Hp & _)%parse_line_Some.
  apply partition_at_Some in Hp as [Hs Hni].
  destruct (strip_trimmed line) as [Hh _]. rewrite Hs in Hh.
  destruct w as [|x w].
  - specialize (Hh 0x09%N eq_refl). done.
  - split; [done|]. split; [|done]. exact Hh.
Qed.

(** A line written by the reducer reads back as the record it renders. *)
Lemma parse_line_render w n : term_ok w → parse_line (render (w, n)) = Some (w, n).
Proof.
  intros (Hne & Hh & Hni). apply parse_line_Some. exists (fmt_d n).
  split; [|apply int_fmt_d].
  unfold render, fmt_record. cbn [fst snd].
  replace (w ++ [0x09%N] ++ fmt_d n ++ [0x0A%N])
    with ((w ++ 0x09%N :: fmt_d n) ++ [0x0A%N])
    by (by rewrite <- !app_assoc).
  rewrite strip_snoc_space; [by apply partition_at_app| |by destruct w|done].
  split; intros c.
  - destruct w; [done|]. apply Hh.
  - rewrite last_app_cons, last_cons.
    pose proof (fmt_d_nospace n) as Hf. rewrite Forall_forall in Hf.
    destruct (last (fmt_d n)) as [y|] eqn:Hy.
    + intros [= <-]. by apply Hf, last_Some_elem_of.
    + apply last_None in Hy. by apply fmt_d_nonempty in Hy.
Qed.

Lemma records_render recs :
  Forall (λ r, term_ok r.1) recs → records (render <$> recs) = recs.
Proof.
  induction 1 as [|[w n] recs Hw _ IH]; [done|].
  unfold records in *. rewrite fmap_cons. cbn [omap list_omap].
  rewrite parse_line_render by done. by rewrite IH.
Qed.

Lemma records_term_ok stdin : Forall (λ r, term_ok r.1) (records stdin).
Proof.
  apply Forall_forall. intros [w n] Hr. unfold records in Hr.
  apply list_elem_of_omap in Hr as (line & _ & Hp).
  by apply parse_line_term in Hp.
Qed.

Lemma reduce_records_term_ok cur recs :
  (∀ c, cur = Some c → term_ok c.1) →
  Forall (λ r, term_ok r.1) recs →
  Forall (λ r, term_ok r.1) (reduce_records cur recs).
Proof.
  intros Hc Hr. revert cur Hc.
  induction Hr as [|[w n] recs Hw _ IH]; intros cur Hc.
  - destruct cur as [c|]; simpl; [|constructor].
    constructor; [by apply Hc | constructor].
  - cbn [reduce_records]. destruct cur as [[w' s]|].
    + case_bool_decide.
      * apply IH. intros c [= <-]. by apply (Hc (w', s)).
      * constructor; [by apply (Hc (w', s))|].
        apply IH. by intros c [= <-].
    + apply IH. by intros c [= <-].
Qed.

(** Reading the reducer's output back gives the records of the fold. *)
Lemma records_reducer stdin :
  records (reducer stdin) = reduce_records None (records stdin).
Proof.
  rewrite reducer_reduce_records. apply records_render.
  apply reduce_records_term_ok; [done | apply records_term_ok].
Qed.

(** C3. On input grouped by term the reducer writes exactly one line
    [term TAB total] per distinct term, in order of first appearance,
    the total being the sum of the term's weights over the lines that
    parse; lines that do not parse contribute nothing. *)
Theorem C3_reducer_grouped (stdin : list (list N)) :
  grouped ((records stdin).*1) →
  reducer stdin = render <$> aggregate (records stdin)
  ∧ records (reducer stdin) = aggregate (records stdin)
  ∧ (aggregate (records stdin)).*1 = first_seen ((records stdin).*1)
  ∧ NoDup ((aggregate (records stdin)).*1)
  ∧ (∀ t, t ∈ (aggregate (records stdin)).*1 ↔ t ∈ (records stdin).*1)
  ∧ (∀ t n, (t, n) ∈ aggregate (records stdin) → n = total t (records stdin)).
Proof.
  intros Hg.
  assert ((aggregate (records stdin)).*1 = first_seen ((records stdin).*1)) as Hfst.
  { unfold aggregate. rewrite <- list_fmap_compose. apply list_fmap_id. }
  assert (reduce_records None (records stdin) = aggregate (records stdin)) as Hagg.
  { destruct (records stdin) as [|[w c] rest]; [done|].
    simpl. by apply reduce_records_grouped. }
  split; [|split; [|split; [done|split; [|split]]]].
  - by rewrite reducer_reduce_records, Hagg.
  - by rewrite records_reducer.
  - rewrite Hfst. apply NoDup_first_seen.
  - intros t. rewrite Hfst. apply elem_of_first_seen.
  - intros t n. unfold aggregate. rewrite list_elem_of_fmap.
    intros (t' & [= -> ->] & _). done.
Qed.

(** The input [a TAB 1], [a TAB 2], [b TAB 3] gives [a TAB 3] then
    [b TAB 3]. *)
Lemma C3_reducer_grouped_witness :
  let stdin := [[0x61; 0x09; 0x31; 0x0A]; [0x61; 0x09; 0x32; 0x0A];
                [0x62; 0x09; 0x33; 0x0A]]%N in
  grouped ((records stdin).*1)
  ∧ reducer stdin = [[0x61; 0x09; 0x33; 0x0A]; [0x62; 0x09; 0x33; 0x0A]]%N.
Proof.
  assert (grouped ((records [[0x61; 0x09; 0x31; 0x0A]; [0x61; 0x09; 0x32; 0x0A];
                             [0x62; 0x09; 0x33; 0x0A]]%N).*1)) as Hg.
  { intros i j k x Hle Hi Hk.
    destruct i as [|[|[|i]]], j as [|[|[|j]]], k as [|[|[|k]]];
      vm_compute in Hi, Hk |- *; try lia; congruence. }
  split; [exact Hg|].
  exact (proj1 (C3_reducer_grouped _ Hg)).
Defined.

(** Unsorted input splits a term over several lines: [a], [b], [a]. *)
Example reducer_fragments :
  reducer [[0x61; 0x09; 0x31]; [0x62; 0x09; 0x32]; [0x61; 0x09; 0x34]]%N
  = [[0x61; 0x09; 0x31; 0x0A]; [0x62; 0x09; 0x32; 0x0A];
     [0x61; 0x09; 0x34; 0x0A]]%N.
Proof. reflexivity. Qed.

(** C10. Whatever the order of the input, the weights read back from the
    lines the reducer writes add up to the weights of all the input lines
    that parse; the lines written are the records of the fold. *)
Theorem C10_reducer_conserves_weight (stdin : list (list N)) :
  sum_weights (records (reducer stdin)) = sum_weights (records stdin)
  ∧ reducer stdin = render <$> reduce_records None (records stdin)
  ∧ records (reducer stdin) = reduce_records None (records stdin).
Proof.
  split; [|split; [apply reducer_reduce_records | apply records_reducer]].
  rewrite records_reducer, sum_weights_reduce_records. simpl. lia.
Qed.

End ReducerSpec.

(** *** Token Filter, Phrase Merger and the per-title token list *)
Module SegmentSpec.
Import Py Seq Segment PyFacts SeqFacts.

Lemma andb_decide_false (b : bool) (P : Prop) `{!Decision P} :
  b && bool_decide P = false ↔ ¬ (b = true ∧ P).
Proof.
  destruct b; simpl; [rewrite bool_decide_eq_false|]; intuition congruence.
Qed.

Lemma is_bad_token_false stop w :
  is_bad_token w stop = false ↔ lexical_ok stop w.
Proof.
  unfold is_bad_token, lexical_ok.
  case_bool_decide as H1; [split; [done | intros (? & _); done] |].
  case_bool_decide as H2; [split; [done | intros (_ & ? & _); done] |].
  case_bool_decide as H3; [split; [done | intros (_ & _ & ? & _); done] |].
  destruct (isdigit w) eqn:H4; [split; [done | intros (_ & _ & _ & ? & _); done] |].
  destruct (fullmatch_latin w && bool_decide (length w < 2)) eqn:H5.
  { split; [done|]. intros (_ & _ & _ & _ & Hn & _).
    apply andb_true_iff in H5 as [? ?%bool_decide_eq_true]. tauto. }
  apply andb_decide_false in H5.
  destruct (existsb is_cjk w && bool_decide (length w < 2)) eqn:H6.
  { split; [done|]. intros (_ & _ & _ & _ & _ & Hn & _).
    apply andb_true_iff in H6 as [Hc ?%bool_decide_eq_true].
    apply Hn in Hc. lia. }
  apply andb_decide_false in H6.
  destruct (existsb is_cjk w && bool_decide (10 < length w)) eqn:H7.
  { split; [done|]. intros (_ & _ & _ & _ & _ & Hn & _).
    apply andb_true_iff in H7 as [Hc ?%bool_decide_eq_true].
    apply Hn in Hc. lia. }
  apply andb_decide_false in H7.
  destruct (KINSHIP_search w && bool_decide (length w ≤ 4)) eqn:H8.
  { split; [done|]. intros (_ & _ & _ & _ & _ & _ & Hn).
    apply andb_true_iff in H8 as [? ?%bool_decide_eq_true]. tauto. }
  apply andb_decide_false in H8.
  split; [intros _|done].
  split_and!; try done.
  intros Hc. destruct (decide (length w < 2)); [tauto|].
  destruct (decide (10 < length w)); [tauto|lia].
Qed.

Lemma is_bad_token_true stop w :
  is_bad_token w stop = true ↔ ¬ lexical_ok stop w.
Proof.
  rewrite <- is_bad_token_false. destruct (is_bad_token w stop); naive_solver.
Qed.

Lemma elem_of_ALLOW_POS_EXACT f :
  f ∈ ALLOW_POS_EXACT ↔
  f = [0x6E; 0x72]%N ∨ f = [0x6E; 0x73]%N ∨ f = [0x6E; 0x74]%N
  ∨ f = [0x6E; 0x7A]%N.
Proof.
  unfold ALLOW_POS_EXACT. rewrite elem_of_list_to_set, !elem_of_cons, elem_of_nil.
  tauto.
Qed.

Lemma allow_by_pos_true flag : allow_by_pos flag = true ↔ pos_allowed flag.
Proof.
  unfold allow_by_pos, pos_allowed, ALLOW_POS_PREFIX.
  cbn [existsb]. rewrite orb_false_r.
  case_bool_decide as He.
  - subst flag. cbn [is_prefix]. rewrite elem_of_ALLOW_POS_EXACT.
    intuition discriminate.
  - case_bool_decide as Hx; [tauto|].
    rewrite orb_true_iff. tauto.
Qed.

Lemma pseg_keep_true stop w flag :
  pseg_keep stop w flag = true ↔ filter_spec stop w flag.
Proof.
  unfold pseg_keep, filter_spec.
  rewrite <- is_bad_token_false, <- allow_by_pos_true.
  case_bool_decide as He.
  - subst w. split; [done|]. intros [Hb _].
    apply is_bad_token_false in Hb. by destruct Hb.
  - destruct (allow_by_pos flag), (is_bad_token w stop); simpl; intuition congruence.
Qed.

(** C4. In the part-of-speech branch a normalized token is kept exactly
    when it is non-empty, outside the stop-term set and the blacklist,
    not all digits, not a pure-Latin string shorter than 2, of length 2
    to 10 if it holds a CJK ideograph, not a kinship match of length at
    most 4, and its tag is a proper-noun tag or begins with [n] or [v];
    a kept token is appended, a rejected one leaves the lists as they
    were. *)
Theorem C4_token_filter (stop : gset (list N))
    (acc : list (list N) * list (list N * list N)) (raw flag : list N) :
  (∀ w, pseg_keep stop w flag = true ↔
      w ≠ [] ∧ (w ∉ stop) ∧ (w ∉ BAD_WORDS)
      ∧ isdigit w = false
      ∧ ¬ (fullmatch_latin w = true ∧ length w < 2)
      ∧ (existsb is_cjk w = true → 2 ≤ length w ≤ 10)
      ∧ ¬ (KINSHIP_search w = true ∧ length w ≤ 4)
      ∧ (flag ∈ ALLOW_POS_EXACT
         ∨ is_prefix [0x6E%N] flag = true ∨ is_prefix [0x76%N] flag = true))
  ∧ (filter_spec stop (normalize_word raw) flag →
     pseg_body stop acc (raw, flag) =
       (acc.1 ++ [normalize_word raw],
        acc.2 ++ [(normalize_word raw, flag)]))
  ∧ (¬ filter_spec stop (normalize_word raw) flag →
     pseg_body stop acc (raw, flag) = acc).
Proof.
  split; [|split].
  - intros w. rewrite pseg_keep_true. unfold filter_spec, lexical_ok, pos_allowed.
    tauto.
  - intros H%pseg_keep_true. unfold pseg_body. cbn [fst snd]. by rewrite H.
  - intros H. unfold pseg_body. cbn [fst snd].
    destruct (pseg_keep stop (normalize_word raw) flag) eqn:Hk; [|done].
    by apply pseg_keep_true in Hk.
Qed.

Lemma lexical_ok_huawei : lexical_ok ∅ huawei.
Proof. apply is_bad_token_false. vm_compute. reflexivity. Qed.

Lemma C4_token_filter_witness :
  filter_spec ∅ (normalize_word huawei) [0x6E; 0x7A]%N
  ∧ pseg_body ∅ ([], []) (huawei, [0x6E; 0x7A]%N)
    = ([huawei], [(huawei, [0x6E; 0x7A]%N)]).
Proof.
  assert (filter_spec ∅ (normalize_word huawei) [0x6E; 0x7A]%N) as H.
  { apply pseg_keep_true. vm_compute. reflexivity. }
  split; [exact H|].
  exact (proj1 (proj2 (C4_token_filter ∅ ([], []) huawei [0x6E; 0x7A]%N)) H).
Defined.

Lemma fold_pseg_body stop l acc :
  fold_left (pseg_body stop) l acc =
  (acc.1 ++ (pseg_kept stop l).*1, acc.2 ++ pseg_kept stop l).
Proof.
  revert acc. induction l as [|[raw flag] l IH]; intros [ts ps].
  - unfold pseg_kept. simpl. by rewrite !app_nil_r.
  - cbn [fold_left]. rewrite IH. unfold pseg_kept, pseg_body.
    rewrite fmap_cons. cbn [fst snd].
    destruct (pseg_keep stop (normalize_word raw) flag) eqn:Hk.
    + rewrite filter_cons_True by done. cbn [fst snd].
      rewrite fmap_cons, <- !app_assoc. done.
    + rewrite filter_cons_False by (cbn [fst snd]; congruence). done.
Qed.

Lemma fold_lcut_body stop l acc :
  fold_left (lcut_body stop) l acc =
  (acc.1 ++ lcut_kept stop l, acc.2 ++ ((λ w, (w, [])) <$> lcut_kept stop l)).
Proof.
  revert acc. induction l as [|raw l IH]; intros [ts ps].
  - unfold lcut_kept. simpl. by rewrite !app_nil_r.
  - cbn [fold_left]. rewrite IH. unfold lcut_kept, lcut_body.
    rewrite fmap_cons. cbn [fst snd].
    destruct (is_bad_token (normalize_word raw) stop) eqn:Hk.
    + rewrite filter_cons_False by congruence. done.
    + rewrite filter_cons_True by done. cbn [fst snd].
      rewrite fmap_cons, <- !app_assoc. done.
Qed.

Lemma segment_pseg cut lcut title stop :
  segment (Some cut) lcut title stop =
  ((pseg_kept stop (cut title)).*1, pseg_kept stop (cut title)).
Proof. unfold segment. by rewrite fold_pseg_body. Qed.

Lemma segment_lcut lcut title stop :
  segment None lcut title stop =
  (lcut_kept stop (lcut title), (λ w, (w, [])) <$> lcut_kept stop (lcut title)).
Proof. unfold segment. by rewrite fold_lcut_body. Qed.

(** [tokens] is the first column of [pos_list]. *)
Lemma segment_tokens pseg lcut title stop :
  (segment pseg lcut title stop).1 = (segment pseg lcut title stop).2.*1.
Proof.
  destruct pseg as [cut|]; [by rewrite segment_pseg|].
  rewrite segment_lcut. cbn [fst snd].
  rewrite <- list_fmap_compose. symmetry. apply list_fmap_id.
Qed.

(** Every recorded token is a normalized word that passes rules 1 to 5. *)
Lemma segment_pos_list pseg lcut title stop w f :
  (w, f) ∈ (segment pseg lcut title stop).2 →
  (∃ raw, w = normalize_word raw) ∧ lexical_ok stop w.
Proof.
  destruct pseg as [cut|].
  - rewrite segment_pseg. cbn [snd]. unfold pseg_kept.
    rewrite list_elem_of_filter, list_elem_of_fmap. cbn [fst snd].
    intros [Hk ([raw f'] & [= -> ->] & _)].
    apply pseg_keep_true in Hk as [Hk _]. eauto.
  - rewrite segment_lcut. cbn [snd]. rewrite list_elem_of_fmap.
    intros (w' & [= -> ->] & Hw). unfold lcut_kept in Hw.
    rewrite list_elem_of_filter, list_elem_of_fmap in Hw.
    destruct Hw as [Hk (raw & -> & _)].
    apply is_bad_token_false in Hk. eauto.
Qed.

(** Without a part-of-speech backend every tag is empty. *)
Lemma segment_lcut_tags lcut title stop w f :
  (w, f) ∈ (segment None lcut title stop).2 → f = [].
Proof.
  rewrite segment_lcut. cbn [snd]. rewrite list_elem_of_fmap.
  by intros (w' & [= -> ->] & _).
Qed.

Lemma tag_noun_like_iff f : noun_like f = true ↔ tag_noun_like f.
Proof.
  unfold noun_like, tag_noun_like.
  rewrite !orb_true_iff, !bool_decide_eq_true. tauto.
Qed.

Lemma merge_pair_empty_tags stop w1 w2 f1 f2 :
  merge_pair stop (w1, []) (w2, []) = None →
  merge_pair stop (w1, f1) (w2, f2) = None.
Proof.
  unfold merge_pair.
  destruct (bool_decide (w1 ∈ BAD_COMPONENT) || bool_decide (w2 ∈ BAD_COMPONENT));
    [done|].
  destruct (KINSHIP_search w1 || KINSHIP_search w2); [done|].
  change (noun_like [] && noun_like []) with true. cbn [negb].
  intros H. destruct (negb (noun_like f1 && noun_like f2)); [done | exact H].
Qed.

(** C6. A token with an empty tag is never rejected because of the tag.
    The part-of-speech backend tags every word, so an empty tag comes only
    from the fallback loop; there a token that passes the lexical rules is
    appended to [tokens] and [pos_list] with its empty tag, and a token is
    left out only when it fails the lexical rules.  The Phrase Merger counts
    the empty tag as noun-like: a pair it rejects with both tags empty it
    rejects with any tags. *)
Theorem C6_empty_tag (pseg : option (list N → list (list N * list N)))
    (lcut : list N → list (list N)) (stop : gset (list N))
    (title raw : list N) :
  tags_nonempty pseg →
  (raw, []) ∈ tagged_words pseg lcut title →
  pseg = None
  ∧ (lexical_ok stop (normalize_word raw) →
     normalize_word raw ∈ (segment pseg lcut title stop).1
     ∧ (normalize_word raw, []) ∈ (segment pseg lcut title stop).2
     ∧ ∀ acc, lcut_body stop acc raw =
         (acc.1 ++ [normalize_word raw], acc.2 ++ [(normalize_word raw, [])]))
  ∧ (¬ lexical_ok stop (normalize_word raw) →
     ∀ acc, lcut_body stop acc raw = acc)
  ∧ noun_like [] = true
  ∧ (∀ w1 w2 f1 f2, merge_pair stop (w1, []) (w2, []) = None →
                    merge_pair stop (w1, f1) (w2, f2) = None).
Proof.
  intros Htags Hin.
  assert (pseg = None) as ->.
  { destruct pseg as [cut|]; [|done].
    by destruct (Htags cut title raw [] eq_refl Hin). }
  cbn [tagged_words] in Hin. apply list_elem_of_fmap in Hin as (w & [= <-] & Hw).
  split; [done|]. split_and!.
  - intros Hok. pose proof Hok as Hb%is_bad_token_false.
    rewrite segment_lcut. cbn [fst snd].
    assert (normalize_word raw ∈ lcut_kept stop (lcut title)) as Hk.
    { unfold lcut_kept. apply list_elem_of_filter. split; [done|].
      apply list_elem_of_fmap. eauto. }
    split; [done|]. split.
    + apply list_elem_of_fmap. eauto.
    + intros acc. unfold lcut_body. by rewrite Hb.
  - intros Hb%is_bad_token_true acc. unfold lcut_body. by rewrite Hb.
  - apply tag_noun_like_iff. by left.
  - intros w1 w2 f1 f2. apply merge_pair_empty_tags.
Qed.

Lemma C6_empty_tag_witness :
  tags_nonempty None
  ∧ (huawei, []) ∈ tagged_words None (λ _, [huawei; shouji]) (huawei ++ shouji)
  ∧ lexical_ok ∅ (normalize_word huawei)
  ∧ huawei ∈ (segment None (λ _, [huawei; shouji]) (huawei ++ shouji) ∅).1.
Proof.
  assert (tags_nonempty None) as Ht by (intros ? ? ? ? [=]).
  assert ((huawei, []) ∈ tagged_words None (λ _, [huawei; shouji])
                           (huawei ++ shouji)) as Hin.
  { cbn. apply list_elem_of_here. }
  assert (lexical_ok ∅ (normalize_word huawei)) as Hok.
  { apply is_bad_token_false. vm_compute. reflexivity. }
  split; [exact Ht|]. split; [exact Hin|]. split; [exact Hok|].
  exact (proj1 (proj1 (proj2 (C6_empty_tag None (λ _, [huawei; shouji]) ∅
                                 (huawei ++ shouji) huawei Ht Hin)) Hok)).
Defined.

(** Why the backend's tags matter: [allow_by_pos] returns [False] for the
    empty string, so a backend that tagged 华为 with the empty string would
    lose it in the part-of-speech loop, where the tag [n] keeps it. *)
Example pos_loop_empty_tag :
  allow_by_pos [] = false
  ∧ pseg_body ∅ ([], []) (huawei, []) = ([], [])
  ∧ pseg_body ∅ ([], []) (huawei, [0x6E%N]) = ([huawei], [(huawei, [0x6E%N])]).
Proof. split_and!; vm_compute; reflexivity. Qed.

Lemma merge_pair_Some stop w1 f1 w2 f2 p :
  merge_pair stop (w1, f1) (w2, f2) = Some p ↔
  p = normalize_word (w1 ++ w2) ∧ merge_spec stop w1 f1 w2 f2.
Proof.
  unfold merge_pair, merge_spec.
  rewrite <- !tag_noun_like_iff, <- is_bad_token_false.
  case_bool_decide as H1; cbn [orb];
    [split; [done | intros (_ & ? & _); done] |].
  case_bool_decide as H2; cbn [orb];
    [split; [done | intros (_ & _ & ? & _); done] |].
  destruct (KINSHIP_search w1); cbn [orb];
    [split; [done | intros (_ & _ & _ & ? & _); done] |].
  destruct (KINSHIP_search w2); cbn [orb];
    [split; [done | intros (_ & _ & _ & _ & ? & _); done] |].
  destruct (noun_like f1); cbn [andb negb];
    [|split; [done | intros (_ & _ & _ & _ & _ & ? & _); done]].
  destruct (noun_like f2); cbn [andb negb];
    [|split; [done | intros (_ & _ & _ & _ & _ & _ & ? & _); done]].
  destruct (is_bad_token (normalize_word (w1 ++ w2)) stop);
    [split; [done | intros (_ & _ & _ & _ & _ & _ & _ & ? & _); done] |].
  case_bool_decide as H3; cbn [orb];
    [split; [done | intros (_ & _ & _ & _ & _ & _ & _ & _ & ?); lia] |].
  case_bool_decide as H4;
    [split; [done | intros (_ & _ & _ & _ & _ & _ & _ & _ & ?); lia] |].
  split; [intros [= <-] | intros [-> _]; done].
  split_and!; try done; lia.
Qed.

Lemma merge_pair_None stop w1 f1 w2 f2 :
  merge_pair stop (w1, f1) (w2, f2) = None ↔ ¬ merge_spec stop w1 f1 w2 f2.
Proof.
  destruct (merge_pair stop (w1, f1) (w2, f2)) as [p|] eqn:Hm.
  - apply merge_pair_Some in Hm as [_ Hm]. split; [done | tauto].
  - split; [|done]. intros _ Hs.
    assert (merge_pair stop (w1, f1) (w2, f2) = Some (normalize_word (w1 ++ w2)))
      as Hm' by (by apply merge_pair_Some).
    congruence.
Qed.

(** The indexed loop visits the adjacent pairs from left to right. *)
Lemma fold_phrase_body stop l n i acc :
  i + n = length l - 1 →
  fold_left (phrase_body stop l) (seq i n) acc =
  acc ++ phrases_in_order stop (drop i l).
Proof.
  revert i acc. induction n as [|n IH]; intros i acc Hi.
  - cbn [seq fold_left].
    destruct (drop i l) as [|a [|b rest]] eqn:Hd; cbn [phrases_in_order];
      try by rewrite app_nil_r.
    apply (f_equal length) in Hd. rewrite length_drop in Hd. simpl in Hd. lia.
  - cbn [seq fold_left].
    destruct (lookup_lt_is_Some_2 l i) as [a Ha]; [lia|].
    destruct (lookup_lt_is_Some_2 l (i + 1)) as [b Hb]; [lia|].
    rewrite IH by lia. unfold phrase_body. rewrite Ha, Hb.
    rewrite (drop_S _ _ _ Ha).
    replace (i + 1) with (S i) in Hb by lia.
    rewrite (drop_S _ _ _ Hb). cbn [phrases_in_order].
    destruct (merge_pair stop a b); [|done].
    by rewrite <- app_assoc.
Qed.

Lemma merge_phrases_in_order stop l :
  merge_phrases stop l = phrases_in_order stop l.
Proof. unfold merge_phrases. by rewrite fold_phrase_body by lia. Qed.

(** *** The Normalizer on concatenations of recorded tokens *)
Lemma NORMALIZE_MAP_Some k v :
  NORMALIZE_MAP !! k = Some v →
  forallb is_cjk k = true ∧ length k ≤ 3 ∧ canonical v.
Proof.
  unfold NORMALIZE_MAP. intros H%elem_of_list_to_map_2.
  repeat (apply elem_of_cons in H as [[= -> ->]|H]);
    [| | | |by apply elem_of_nil in H];
    (split; [reflexivity|]; split; [simpl; lia|]);
    (split; [apply trimmed_nospace; repeat constructor | discriminate]).
Qed.

Lemma upper_canonical s : fullmatch_latin s = true → canonical (upper s).
Proof.
  intros [Hne Hs]%fullmatch_latin_forall. split; [|intros _; apply upper_idemp].
  apply trimmed_nospace. unfold upper. apply Forall_fmap.
  eapply Forall_impl; [exact Hs|]. intros c Hc. simpl.
  by apply is_latin_nospace, upper_char_latin.
Qed.

Lemma normalize_word_canonical raw : canonical (normalize_word raw).
Proof.
  unfold normalize_word. case_bool_decide as He.
  - split; [by apply trimmed_nospace | done].
  - destruct (fullmatch_latin (strip raw)) eqn:Hl.
    + destruct (NORMALIZE_MAP !! upper (strip raw)) as [v|] eqn:Hv.
      * by apply NORMALIZE_MAP_Some in Hv as (_ & _ & ?).
      * by apply upper_canonical.
    + destruct (NORMALIZE_MAP !! strip raw) as [v|] eqn:Hv.
      * by apply NORMALIZE_MAP_Some in Hv as (_ & _ & ?).
      * split; [apply strip_trimmed | congruence].
Qed.

Lemma forallb_cjk_length stop w :
  forallb is_cjk w = true → lexical_ok stop w → 2 ≤ length w.
Proof.
  intros Hf (Hne & _ & _ & _ & _ & Hc & _).
  destruct w as [|c w]; [done|]. apply Hc.
  simpl in *. apply andb_true_iff in Hf as [-> _]. done.
Qed.

Lemma normalize_word_concat stop w1 w2 :
  canonical w1 → canonical w2 → lexical_ok stop w1 → lexical_ok stop w2 →
  normalize_word (w1 ++ w2) = w1 ++ w2.
Proof.
  intros [Ht1 Hu1] [Ht2 Hu2] Hl1 Hl2.
  assert (w1 ≠ []) as Hn1 by apply Hl1.
  assert (w2 ≠ []) as Hn2 by apply Hl2.
  unfold normalize_word.
  rewrite trimmed_strip by (by apply trimmed_app).
  rewrite bool_decide_eq_false_2 by (by destruct w1).
  assert ((if fullmatch_latin (w1 ++ w2) then upper (w1 ++ w2) else w1 ++ w2)
          = w1 ++ w2) as ->.
  { destruct (fullmatch_latin (w1 ++ w2)) eqn:Hf; [|done].
    apply fullmatch_latin_forall in Hf as [_ [H1 H2]%Forall_app].
    unfold upper. rewrite fmap_app. f_equal.
    - apply Hu1, fullmatch_latin_forall. done.
    - apply Hu2, fullmatch_latin_forall. done. }
  destruct (NORMALIZE_MAP !! (w1 ++ w2)) as [v|] eqn:Hv; [|done].
  apply NORMALIZE_MAP_Some in Hv as (Hc & Hlen & _).
  rewrite forallb_app in Hc. apply andb_true_iff in Hc as [Hc1 Hc2].
  pose proof (forallb_cjk_length _ _ Hc1 Hl1).
  pose proof (forallb_cjk_length _ _ Hc2 Hl2).
  rewrite length_app in Hlen. lia.
Qed.

(** C5. For every adjacent pair of the filtered sequence of a title the
    normalized concatenation is the plain concatenation, and the pair
    yields it as a phrase exactly when neither token is a dangerous
    component or a kinship match, both tags are empty, proper-noun or
    noun-class, and the concatenation passes rules 1 to 5 with a length
    from 2 to 8; the phrases are collected by starting position. *)
Theorem C5_phrase_merger (pseg : option (list N → list (list N * list N)))
    (lcut : list N → list (list N)) (title : list N) (stop : gset (list N)) :
  (∀ i w1 f1 w2 f2,
     (segment pseg lcut title stop).2 !! i = Some (w1, f1) →
     (segment pseg lcut title stop).2 !! (i + 1) = Some (w2, f2) →
     normalize_word (w1 ++ w2) = w1 ++ w2
     ∧ (merge_pair stop (w1, f1) (w2, f2) = Some (w1 ++ w2) ↔
        (w1 ∉ BAD_COMPONENT) ∧ (w2 ∉ BAD_COMPONENT)
        ∧ KINSHIP_search w1 = false ∧ KINSHIP_search w2 = false
        ∧ tag_noun_like f1 ∧ tag_noun_like f2
        ∧ lexical_ok stop (w1 ++ w2)
        ∧ 2 ≤ length (w1 ++ w2) ≤ 8)
     ∧ (merge_pair stop (w1, f1) (w2, f2) = None ↔
        ¬ merge_spec stop w1 f1 w2 f2)
     ∧ (∀ p, merge_pair stop (w1, f1) (w2, f2) = Some p → p = w1 ++ w2))
  ∧ merge_phrases stop (segment pseg lcut title stop).2
    = phrases_in_order stop (segment pseg lcut title stop).2.
Proof.
  split; [|apply merge_phrases_in_order].
  intros i w1 f1 w2 f2 H1%list_elem_of_lookup_2 H2%list_elem_of_lookup_2.
  apply segment_pos_list in H1 as [[r1 Hr1] Hl1].
  apply segment_pos_list in H2 as [[r2 Hr2] Hl2].
  assert (normalize_word (w1 ++ w2) = w1 ++ w2) as Hn.
  { apply (normalize_word_concat stop); [| |done|done].
    - rewrite Hr1. apply normalize_word_canonical.
    - rewrite Hr2. apply normalize_word_canonical. }
  split; [done|]. split; [|split].
  - rewrite merge_pair_Some. unfold merge_spec. rewrite Hn. tauto.
  - apply merge_pair_None.
  - intros p [-> _]%merge_pair_Some. done.
Qed.

Lemma C5_phrase_merger_witness :
  (segment (Some sample_cut) (λ _, []) (huawei ++ shouji) ∅).2 !! 0
    = Some (huawei, [0x6E; 0x7A]%N)
  ∧ (segment (Some sample_cut) (λ _, []) (huawei ++ shouji) ∅).2 !! 1
    = Some (shouji, [0x6E]%N)
  ∧ normalize_word (huawei ++ shouji) = huawei ++ shouji
  ∧ merge_phrases ∅ (segment (Some sample_cut) (λ _, []) (huawei ++ shouji) ∅).2
    = [huawei ++ shouji].
Proof.
  split; [reflexivity|]. split; [reflexivity|].
  pose proof (C5_phrase_merger (Some sample_cut) (λ _, []) (huawei ++ shouji) ∅)
    as [Hpair Hord].
  split.
  - exact (proj1 (Hpair 0 huawei [0x6E; 0x7A]%N shouji [0x6E]%N eq_refl eq_refl)).
  - rewrite Hord. reflexivity.
Defined.

Lemma fold_dedup_body l X out :
  (fold_left dedup_body l (X, out)).2 =
  out ++ first_seen (filter (λ w, w ∉ X) l).
Proof.
  revert X out. induction l as [|w l IH]; intros X out.
  - simpl. by rewrite app_nil_r.
  - cbn [fold_left]. unfold dedup_body at 2. cbn [fst snd].
    case_bool_decide as Hw.
    + rewrite IH, filter_cons_True by done. cbn [first_seen].
      rewrite <- app_assoc. cbn [app]. do 2 f_equal.
      rewrite <- first_seen_filter, list_filter_filter. f_equal.
      apply list_filter_iff. intros y.
      rewrite not_elem_of_union, not_elem_of_singleton. tauto.
    + rewrite IH, filter_cons_False by (intros Hn; exact (Hn Hw)). done.
Qed.

(** The loop with the [seen] set keeps the first occurrences. *)
Lemma dedup_first_seen l : dedup l = first_seen l.
Proof.
  unfold dedup. rewrite fold_dedup_body. cbn [app]. f_equal.
  induction l as [|x l IH]; [done|].
  rewrite filter_cons_True by set_solver. by rewrite IH.
Qed.

Lemma tokenize_phrases_and_tokens pseg lcut title stop :
  tokenize pseg lcut title stop =
  take 40 (first_seen ((phrases_and_tokens pseg lcut title stop).1
                       ++ (phrases_and_tokens pseg lcut title stop).2)).
Proof.
  unfold tokenize, phrases_and_tokens. case_bool_decide; [done|].
  destruct (segment pseg lcut (clean_title title) stop) as [tokens pos_list].
  cbn [fst snd]. by rewrite dedup_first_seen.
Qed.

(** C2. The token list of a title has at most 40 entries and no
    duplicates; it is the first 40 of the merged phrases followed by the
    filtered single tokens, each in discovery order, with later
    duplicates removed; an entry that is a phrase comes before every
    entry that is not. *)
Theorem C2_token_set (pseg : option (list N → list (list N * list N)))
    (lcut : list N → list (list N)) (title : list N) (stop : gset (list N)) :
  length (tokenize pseg lcut title stop) ≤ 40
  ∧ NoDup (tokenize pseg lcut title stop)
  ∧ tokenize pseg lcut title stop =
      take 40 (first_seen ((phrases_and_tokens pseg lcut title stop).1
                           ++ (phrases_and_tokens pseg lcut title stop).2))
  ∧ first_seen ((phrases_and_tokens pseg lcut title stop).1
                ++ (phrases_and_tokens pseg lcut title stop).2)
    = first_seen (phrases_and_tokens pseg lcut title stop).1
      ++ filter (λ w, w ∉ (phrases_and_tokens pseg lcut title stop).1)
           (first_seen (phrases_and_tokens pseg lcut title stop).2)
  ∧ (∀ i j p t,
       tokenize pseg lcut title stop !! i = Some p →
       tokenize pseg lcut title stop !! j = Some t →
       p ∈ (phrases_and_tokens pseg lcut title stop).1 →
       t ∉ (phrases_and_tokens pseg lcut title stop).1 →
       i < j).
Proof.
  rewrite tokenize_phrases_and_tokens.
  destruct (phrases_and_tokens pseg lcut title stop) as [phrases tokens].
  cbn [fst snd]. split_and!.
  - rewrite length_take. lia.
  - eapply sublist_NoDup; [apply NoDup_first_seen | apply sublist_take].
  - done.
  - apply first_seen_app.
  - rewrite first_seen_app. intros i j p t Hi Hj Hp Ht.
    apply lookup_take_Some in Hi as [Hi _]. apply lookup_take_Some in Hj as [Hj _].
    destruct (decide (i < length (first_seen phrases))) as [Hlt|Hge].
    + destruct (decide (j < length (first_seen phrases))) as [Hlt'|]; [|lia].
      rewrite lookup_app_l in Hj by done.
      apply list_elem_of_lookup_2 in Hj.
      exfalso. apply Ht. exact (proj1 (elem_of_first_seen _ _) Hj).
    + rewrite lookup_app_r in Hi by lia.
      apply list_elem_of_lookup_2 in Hi.
      apply (proj1 (list_elem_of_filter _ _ _)) in Hi as [Hn _].
      exfalso. exact (Hn Hp).
Qed.

(** With 华为 tagged [nz] and 手机 tagged [n] the list is
    华为手机, 华为, 手机. *)
Lemma C2_token_set_witness :
  tokenize (Some sample_cut) (λ _, []) (huawei ++ shouji) ∅ !! 0
    = Some (huawei ++ shouji)
  ∧ tokenize (Some sample_cut) (λ _, []) (huawei ++ shouji) ∅ !! 1
    = Some huawei
  ∧ huawei ++ shouji
    ∈ (phrases_and_tokens (Some sample_cut) (λ _, []) (huawei ++ shouji) ∅).1
  ∧ (huawei
     ∉ (phrases_and_tokens (Some sample_cut) (λ _, []) (huawei ++ shouji) ∅).1)
  ∧ 0 < 1.
Proof.
  assert (huawei ++ shouji
            ∈ (phrases_and_tokens (Some sample_cut) (λ _, [])
                 (huawei ++ shouji) ∅).1) as Hp.
  { vm_compute. apply list_elem_of_here. }
  assert (huawei
            ∉ (phrases_and_tokens (Some sample_cut) (λ _, [])
                 (huawei ++ shouji) ∅).1) as Ht.
  { vm_compute. intros H. apply elem_of_cons in H as [H|H]; [discriminate|].
    by apply elem_of_nil in H. }
  split; [reflexivity|]. split; [reflexivity|]. split; [exact Hp|].
  split; [exact Ht|].
  exact (proj2 (proj2 (proj2 (proj2
           (C2_token_set (Some sample_cut) (λ _, []) (huawei ++ shouji) ∅))))
           0 1 (huawei ++ shouji) huawei eq_refl eq_refl Hp Ht).
Defined.

(** A phrase takes the place of a later single token with the same
    text: from [ab cd abcd] the tokens are AB, CD, ABCD, the phrases ABCD
    and CDABCD, and ABCD is listed once, first. *)
Example tokenize_phrase_first :
  tokenize None split_ws
    [0x61; 0x62; 0x20; 0x63; 0x64; 0x20; 0x61; 0x62; 0x63; 0x64]%N ∅
  = [[0x41; 0x42; 0x43; 0x44]; [0x43; 0x44; 0x41; 0x42; 0x43; 0x44];
     [0x41; 0x42]; [0x43; 0x44]]%N.
Proof. vm_compute. reflexivity. Qed.

(** *** The batch *)
Lemma tokenize_clean_empty pseg lcut title stop :
  clean_title title = [] → tokenize pseg lcut title stop = [].
Proof. intros H. unfold tokenize. by rewrite H. Qed.

Lemma length_tokenize pseg lcut title stop :
  length (tokenize pseg lcut title stop) ≤ 40.
Proof. rewrite tokenize_phrases_and_tokens, length_take. lia. Qed.

Lemma seg_line_Some pseg lcut stop line out :
  seg_line pseg lcut stop line = Some out →
  ∃ rank_str title,
    partition_at 0x2C (strip line) = Some (rank_str, title)
    ∧ isdigit (strip rank_str) = true
    ∧ tokenize pseg lcut (strip title) stop ≠ []
    ∧ out = strip rank_str ++ [0x2C%N]
            ++ join [0x20%N] (tokenize pseg lcut (strip title) stop).
Proof.
  unfold seg_line, split1.
  destruct (bool_decide (strip line = []) || negb (contains 0x2C (strip line)));
    [done|].
  destruct (partition_at 0x2C (strip line)) as [[rank_str title]|]; [|done].
  destruct (isdigit (strip rank_str)) eqn:Hd; [|done]. cbn [negb].
  case_bool_decide as Ht; [done|]. intros [= <-].
  exists rank_str, title. done.
Qed.

Lemma seg_line_clean_empty pseg lcut stop line :
  (∀ rank_str title,
     partition_at 0x2C (strip line) = Some (rank_str, title) →
     clean_title (strip title) = []) →
  seg_line pseg lcut stop line = None.
Proof.
  intros H. destruct (seg_line pseg lcut stop line) as [out|] eqn:Hs; [|done].
  apply seg_line_Some in Hs as (r & t & Hp & _ & Hne & _).
  destruct Hne. apply tokenize_clean_empty. by eapply H.
Qed.

Lemma omap_all_None {A B} (f : A → option B) (l : list A) :
  (∀ x, x ∈ l → f x = None) → omap f l = [].
Proof.
  induction l as [|x l IH]; [done|]. intros H. simpl.
  rewrite (H x) by left. apply IH. intros y Hy. apply H. by right.
Qed.

(** C8. [main] exits with status 1 and leaves every file as it was
    exactly when the input file is absent or no line of it yields an
    output line, as when every title cleans to the empty string;
    otherwise it exits with status 0 and the output file holds all the
    output lines, each a rank, a comma and 1 to 40 tokens. *)
Theorem C8_main_all_or_nothing
    (pseg : option (list N → list (list N * list N)))
    (lcut : list N → list (list N)) (fs : files) :
  (RAW fs = None → main pseg lcut fs = (1%Z, fs))
  ∧ (∀ raw, RAW fs = Some raw →
       out_lines pseg lcut raw (load_stopwords (STOP fs)) = [] →
       main pseg lcut fs = (1%Z, fs))
  ∧ (∀ raw, RAW fs = Some raw →
       out_lines pseg lcut raw (load_stopwords (STOP fs)) ≠ [] →
       main pseg lcut fs =
         (0%Z, Files (RAW fs)
                 (Some (join [0x0A%N]
                          (out_lines pseg lcut raw (load_stopwords (STOP fs)))))
                 (STOP fs)))
  ∧ ((main pseg lcut fs).1 ≠ 0%Z ↔
     RAW fs = None
     ∨ ∃ raw, RAW fs = Some raw
              ∧ out_lines pseg lcut raw (load_stopwords (STOP fs)) = [])
  ∧ (∀ raw, RAW fs = Some raw →
       (∀ line rank_str title,
          line ∈ splitlines raw →
          partition_at 0x2C (strip line) = Some (rank_str, title) →
          clean_title (strip title) = []) →
       main pseg lcut fs = (1%Z, fs))
  ∧ (∀ raw out, RAW fs = Some raw →
       out ∈ out_lines pseg lcut raw (load_stopwords (STOP fs)) →
       ∃ rank toks,
         out = rank ++ [0x2C%N] ++ join [0x20%N] toks
         ∧ isdigit rank = true ∧ 1 ≤ length toks ≤ 40).
Proof.
  assert (∀ raw, RAW fs = Some raw →
            out_lines pseg lcut raw (load_stopwords (STOP fs)) = [] →
            main pseg lcut fs = (1%Z, fs)) as Hempty.
  { intros raw Hr Ho. unfold main. rewrite Hr, Ho. done. }
  split_and!.
  - intros Hr. unfold main. by rewrite Hr.
  - exact Hempty.
  - intros raw Hr Ho. unfold main. rewrite Hr.
    by rewrite bool_decide_eq_false_2.
  - unfold main. destruct (RAW fs) as [raw|] eqn:Hr.
    + case_bool_decide as Ho; cbn [fst].
      * split; [intros _; right; eauto | done].
      * split; [done|]. intros [?|(raw' & [= <-] & ?)]; done.
    + cbn [fst]. split; [by left | done].
  - intros raw Hr Hall. apply (Hempty raw Hr). unfold out_lines.
    apply omap_all_None. intros line Hl. apply seg_line_clean_empty.
    intros r t. by apply Hall.
  - intros raw out _ Ho. unfold out_lines in Ho.
    apply list_elem_of_omap in Ho as (line & _ & Hs).
    apply seg_line_Some in Hs as (r & t & _ & Hd & Hne & ->).
    eexists _, _. split; [done|]. split; [done|].
    split; [|apply length_tokenize].
    destruct (tokenize pseg lcut (strip t) (load_stopwords (STOP fs)));
      [done | simpl; lia].
Qed.

(** The batch [1,!!!] and [2,。?]: every title is pure punctuation. *)
Lemma C8_main_all_or_nothing_witness :
  RAW punct_files
    = Some [0x31; 0x2C; 0x21; 0x21; 0x21; 0x0A; 0x32; 0x2C; 0x3002; 0x3F]%N
  ∧ main None split_ws punct_files = (1%Z, punct_files).
Proof.
  split; [reflexivity|].
  apply (proj1 (proj2 (proj2 (proj2 (proj2
           (C8_main_all_or_nothing None split_ws punct_files)))))
           _ eq_refl).
  intros line r t Hl Hp. vm_compute in Hl.
  apply elem_of_cons in Hl as [->|Hl];
    [|apply elem_of_cons in Hl as [->|Hl]; [|by apply elem_of_nil in Hl]];
    vm_compute in Hp; injection Hp as <- <-; reflexivity.
Defined.

(** A batch with one usable title is written out in full. *)
Example main_writes :
  main (Some sample_cut) split_ws
    (Files (Some ([0x31; 0x2C]%N ++ huawei ++ shouji)) None None)
  = (0%Z, Files (Some ([0x31; 0x2C]%N ++ huawei ++ shouji))
            (Some ([0x31; 0x2C]%N ++ huawei ++ shouji ++ [0x20%N]
                   ++ huawei ++ [0x20%N] ++ shouji))
            None).
Proof. vm_compute. reflexivity. Qed.

End SegmentSpec.

(** *** The Top-N Selector *)
Module WebSpec.
Import Py Seq Web PyFacts SeqFacts.

Lemma parse_entry_Some line e :
  parse_entry line = Some e ↔
  ∃ c, partition_at 0x09 line = Some (word e, c) ∧ int c = Some (count e).
Proof.
  unfold parse_entry, split1.
  destruct (partition_at 0x09 line) as [[w c]|] eqn:Hp.
  - rewrite (contains_partition _ _ _ _ Hp). cbn [negb].
    destruct (int c) as [n|] eqn:Hc.
    + split.
      * intros [= <-]. eauto.
      * intros (c' & [= -> <-] & Hn). destruct e as [w n'].
        cbn in *. congruence.
    + split; [done|]. intros (c' & [= _ <-] & Hn). congruence.
  - split; [|intros (c & ? & _); done].
    by destruct (negb (contains 0x09 line)).
Qed.

(** A line without a tab, or whose text after the first tab is not an
    integer, yields no entry. *)
Lemma parse_entry_None line :
  parse_entry line = None ↔
  0x09%N ∉ line
  ∨ ∃ w c, partition_at 0x09 line = Some (w, c) ∧ int c = None.
Proof.
  unfold parse_entry, split1.
  destruct (partition_at 0x09 line) as [[w c]|] eqn:Hp.
  - rewrite (contains_partition _ _ _ _ Hp). cbn [negb].
    apply partition_at_Some in Hp as Hs. destruct Hs as [-> _].
    destruct (int c) as [n|] eqn:Hc.
    + split; [done|]. intros [Hn|(w' & c' & [= <- <-] & ?)]; [|congruence].
      destruct Hn. apply elem_of_app. right. left.
    + split; [|done]. intros _. right. eauto.
  - split; [|by destruct (negb (contains 0x09 line))].
    intros _. left. by apply partition_at_None.
Qed.

Lemma insert_desc_perm x l : insert_desc x l ≡ₚ x :: l.
Proof.
  induction l as [|y l IH]; [done|]. simpl.
  destruct (count x <? count y)%Z; [|done].
  rewrite IH. apply Permutation_swap.
Qed.

Lemma sort_desc_perm l : sort_desc l ≡ₚ l.
Proof.
  induction l as [|x l IH]; [done|]. simpl.
  by rewrite insert_desc_perm, IH.
Qed.

Lemma insert_desc_sorted x l :
  StronglySorted desc l → StronglySorted desc (insert_desc x l).
Proof.
  induction 1 as [|y l Hs IH Hall]; simpl.
  - repeat constructor.
  - destruct (Z.ltb_spec (count x) (count y)) as [Hlt|Hge].
    + constructor; [done|].
      rewrite insert_desc_perm. constructor; [unfold desc; lia | done].
    + constructor; [by constructor|].
      constructor; [done|].
      eapply Forall_impl; [exact Hall|]. unfold desc. intros z Hz. lia.
Qed.

Lemma sort_desc_sorted l : StronglySorted desc (sort_desc l).
Proof.
  induction l as [|x l IH]; simpl; [constructor | by apply insert_desc_sorted].
Qed.

(** The sort is stable: entries of equal weight keep their order. *)
Lemma insert_desc_stable k x l :
  filter (λ e, count e = k) (insert_desc x l) =
  filter (λ e, count e = k) (x :: l).
Proof.
  induction l as [|y l IH]; [done|]. simpl.
  destruct (Z.ltb_spec (count x) (count y)) as [Hlt|Hge]; [|done].
  rewrite (filter_cons _ y), IH, !(filter_cons _ x), (filter_cons _ y).
  repeat case_decide; try done. lia.
Qed.

Lemma sort_desc_stable k l :
  filter (λ e, count e = k) (sort_desc l) = filter (λ e, count e = k) l.
Proof.
  induction l as [|x l IH]; [done|]. simpl.
  by rewrite insert_desc_stable, !filter_cons, IH.
Qed.

(** C9. The selector returns the first 20 entries, or all of them when
    there are fewer, of the parsed entries sorted by descending weight,
    entries of equal weight in file order; with distinct terms that is
    fewer than 20 exactly when fewer distinct terms parse.  An entry is
    parsed from a line with a tab whose text after the first tab is an
    integer; other lines are skipped. *)
Theorem C9_top20 (txt : list N) :
  parse_top20 (Some txt) = take 20 (sort_desc (parsed txt))
  ∧ StronglySorted desc (parse_top20 (Some txt))
  ∧ StronglySorted desc (sort_desc (parsed txt))
  ∧ sort_desc (parsed txt) ≡ₚ parsed txt
  ∧ (∀ k, filter (λ e, count e = k) (sort_desc (parsed txt))
          = filter (λ e, count e = k) (parsed txt))
  ∧ length (parse_top20 (Some txt)) = 20 `min` length (parsed txt)
  ∧ (NoDup (word <$> parsed txt) →
     length (parse_top20 (Some txt))
     = 20 `min` length (first_seen (word <$> parsed txt)))
  ∧ (∀ e, e ∈ parsed txt ↔
       ∃ line c, line ∈ splitlines txt
                 ∧ partition_at 0x09 line = Some (word e, c)
                 ∧ int c = Some (count e)).
Proof.
  assert (length (parse_top20 (Some txt)) = 20 `min` length (parsed txt)) as Hlen.
  { unfold parse_top20. rewrite length_take.
    by rewrite (Permutation_length (sort_desc_perm _)). }
  split_and!.
  - done.
  - unfold parse_top20.
    pose proof (sort_desc_sorted (parsed txt)) as Hs.
    rewrite <- (take_drop 20 (sort_desc (parsed txt))) in Hs.
    by apply StronglySorted_app_1_l in Hs.
  - apply sort_desc_sorted.
  - apply sort_desc_perm.
  - intros k. apply sort_desc_stable.
  - done.
  - intros Hnd. rewrite Hlen, (first_seen_NoDup _ Hnd).
    by rewrite length_fmap.
  - intros e. unfold parsed. rewrite list_elem_of_omap.
    split.
    + intros (line & Hl & (c & Hp & Hc)%parse_entry_Some). eauto.
    + intros (line & c & Hl & Hp & Hc). exists line. split; [done|].
      apply parse_entry_Some. eauto.
Qed.

(** Five lines, two of them skipped; [b] and [d] tie at 3 and keep their
    order. *)
Lemma C9_top20_witness :
  let txt := [0x61; 0x09; 0x31; 0x0A; 0x62; 0x09; 0x33; 0x0A; 0x63; 0x0A;
              0x64; 0x09; 0x33; 0x0A; 0x65; 0x09; 0x78]%N in
  NoDup (word <$> parsed txt)
  ∧ parse_top20 (Some txt)
    = [Entry [0x62%N] 3; Entry [0x64%N] 3; Entry [0x61%N] 1]
  ∧ length (parse_top20 (Some txt))
    = 20 `min` length (first_seen (word <$> parsed txt)).
Proof.
  assert (NoDup (word <$> parsed [0x61; 0x09; 0x31; 0x0A; 0x62; 0x09; 0x33;
                   0x0A; 0x63; 0x0A; 0x64; 0x09; 0x33; 0x0A; 0x65; 0x09;
                   0x78]%N)) as Hnd.
  { vm_compute. repeat (apply NoDup_cons; split;
      [rewrite ?elem_of_cons, elem_of_nil; intuition discriminate|]).
    apply NoDup_nil_2. }
  split; [exact Hnd|]. split; [reflexivity|].
  exact (proj1 (proj2 (proj2 (proj2 (proj2 (proj2 (proj2
           (C9_top20 _))))))) Hnd).
Defined.

Example parse_top20_missing : parse_top20 None = [].
Proof. reflexivity. Qed.

End WebSpec.

(** *** Cleaner, Normalizer, stop words and the entries of a token list *)
Module CleanerSpec.
Import Py Seq Segment Shapes PyFacts SeqFacts SegmentSpec.

Lemma is_kept_nospace c : is_kept c = true → isspace c = false.
Proof.
  unfold is_kept, is_cjk, is_latin, isspace.
  rewrite !orb_true_iff, !in_range_spec.
  intros H. repeat (apply orb_false_iff; split);
    first [apply N.eqb_neq | apply not_true_iff_false; rewrite in_range_spec];
    lia.
Qed.

Lemma space_not_kept : is_kept 0x20 = false.
Proof. reflexivity. Qed.

(** A second pass with a class that holds the space and none of the
    characters the first pass keeps changes nothing. *)
Lemma sub_runs_sub_runs (p q : N → bool) b s :
  q 0x20%N = true → (∀ c, p c = false → q c = false) →
  sub_runs q b (sub_runs p b s) = sub_runs p b s.
Proof.
  intros Hq Hpq. revert b. induction s as [|c s IH]; intros b; [done|].
  simpl. destruct (p c) eqn:Hc.
  - destruct b; [apply IH|]. simpl. rewrite Hq. f_equal. apply IH.
  - simpl. rewrite (Hpq c Hc). f_equal. apply IH.
Qed.

Lemma clean_title_strip s :
  clean_title s = strip (sub_runs (λ c, negb (is_kept c)) false s).
Proof.
  unfold clean_title. rewrite sub_runs_sub_runs; [done|done|].
  intros c Hc. apply is_kept_nospace. by destruct (is_kept c).
Qed.

Lemma sub_runs_chars (p : N → bool) b s :
  Forall (λ c, p c = false ∨ c = 0x20%N) (sub_runs p b s).
Proof.
  revert b. induction s as [|c s IH]; intros b; simpl; [constructor|].
  destruct (p c) eqn:Hc.
  - destruct b; [apply IH|]. constructor; [by right | apply IH].
  - constructor; [by left | apply IH].
Qed.

Lemma sub_runs_single_spaced (p : N → bool) b s :
  p 0x20%N = true →
  single_spaced (sub_runs p b s)
  ∧ (b = true → head (sub_runs p b s) ≠ Some 0x20%N).
Proof.
  intros Hp. revert b. induction s as [|c s IH]; intros b; [done|].
  cbn [sub_runs]. destruct (p c) eqn:Hc.
  - destruct b; [apply IH|]. split; [|done].
    destruct (IH true) as [Hs Hh].
    destruct (sub_runs p true s) as [|y l] eqn:Hl; [done|].
    split; [|done]. intros [_ ->]. by apply Hh.
  - destruct (IH false) as [Hs _]. split.
    + destruct (sub_runs p false s) as [|y l] eqn:Hl; [done|].
      split; [|done]. intros [-> _]. congruence.
    + intros _ [= ->]. congruence.
Qed.

(** Stripping keeps a contiguous part of the text. *)
Lemma strip_infix s : ∃ a b, s = a ++ strip s ++ b.
Proof.
  unfold strip, rstrip, lstrip.
  destruct (drop_while_suffix isspace s) as [a Ha].
  destruct (drop_while_suffix isspace (reverse (drop_while isspace s))) as [k Hk].
  apply (f_equal reverse) in Hk.
  rewrite reverse_involutive, reverse_app in Hk.
  exists a, (reverse k). by rewrite <- Hk.
Qed.

Lemma single_spaced_app_r a l : single_spaced (a ++ l) → single_spaced l.
Proof.
  induction a as [|x a IH]; [done|]. intros H. apply IH.
  destruct a as [|y a]; simpl in *.
  - by destruct l as [|z l]; [|destruct H].
  - by destruct H.
Qed.

Lemma single_spaced_app_l l b : single_spaced (l ++ b) → single_spaced l.
Proof.
  induction l as [|x l IH]; [done|]. intros H.
  destruct l as [|y l]; [done|]. simpl in *.
  destruct H as [H1 H2]. split; [done | by apply IH].
Qed.

Lemma clean_title_cleaned s : cleaned (clean_title s).
Proof.
  rewrite clean_title_strip.
  set (s1 := sub_runs (λ c, negb (is_kept c)) false s).
  destruct (strip_infix s1) as (a & b & Hs).
  pose proof (sub_runs_chars (λ c, negb (is_kept c)) false s) as Hc.
  destruct (sub_runs_single_spaced (λ c, negb (is_kept c)) false s eq_refl)
    as [Hss _].
  fold s1 in Hc, Hss. rewrite Hs in Hc, Hss.
  split; [|split; [|apply strip_trimmed]].
  - apply Forall_app in Hc as [_ [Hc _]%Forall_app].
    eapply Forall_impl; [exact Hc|]. intros c [H|H]; [left|by right].
    by destruct (is_kept c).
  - by apply single_spaced_app_r, single_spaced_app_l in Hss.
Qed.

Lemma filter_kept_sub_runs b s :
  filter (λ c, is_kept c = true) (sub_runs (λ c, negb (is_kept c)) b s)
  = filter (λ c, is_kept c = true) s.
Proof.
  revert b. induction s as [|c s IH]; intros b; [done|].
  cbn [sub_runs]. destruct (is_kept c) eqn:Hc; cbn [negb].
  - rewrite !filter_cons_True by done. by rewrite IH.
  - rewrite (filter_cons_False _ c) by congruence.
    destruct b; [apply IH|].
    rewrite filter_cons_False by (rewrite space_not_kept; congruence).
    apply IH.
Qed.

Lemma filter_kept_drop_while s :
  filter (λ c, is_kept c = true) (drop_while isspace s)
  = filter (λ c, is_kept c = true) s.
Proof.
  induction s as [|c s IH]; [done|]. simpl.
  destruct (isspace c) eqn:Hc; [|done].
  rewrite IH, filter_cons_False; [done|].
  intros Hk%is_kept_nospace. congruence.
Qed.

Lemma filter_kept_strip s :
  filter (λ c, is_kept c = true) (strip s) = filter (λ c, is_kept c = true) s.
Proof.
  unfold strip, rstrip, lstrip.
  rewrite filter_reverse, filter_kept_drop_while, <- filter_reverse.
  by rewrite reverse_involutive, filter_kept_drop_while.
Qed.

Lemma filter_kept_clean_title s :
  filter (λ c, is_kept c = true) (clean_title s)
  = filter (λ c, is_kept c = true) s.
Proof. by rewrite clean_title_strip, filter_kept_strip, filter_kept_sub_runs. Qed.

Lemma clean_title_empty s :
  clean_title s = [] ↔ Forall (λ c, is_kept c = false) s.
Proof.
  split.
  - intros H. pose proof (filter_kept_clean_title s) as Hf.
    rewrite H in Hf. apply Forall_forall. intros c Hc.
    destruct (is_kept c) eqn:Hk; [|done].
    assert (c ∈ filter (λ c, is_kept c = true) s) as Hin
      by (by apply list_elem_of_filter).
    rewrite <- Hf in Hin. by apply elem_of_nil in Hin.
  - intros H. destruct (clean_title_cleaned s) as (Hc & _ & Ht & _).
    pose proof (filter_kept_clean_title s) as Hf.
    destruct (clean_title s) as [|c l]; [done|]. exfalso.
    inversion_clear Hc as [|?? [Hk| ->] _].
    + assert (c ∈ filter (λ c, is_kept c = true) s) as Hin.
      { rewrite <- Hf. apply list_elem_of_filter. split; [done | left]. }
      apply list_elem_of_filter in Hin as [_ Hin].
      rewrite Forall_forall in H. apply H in Hin. congruence.
    + by specialize (Ht 0x20%N eq_refl).
Qed.

(** On cleaned text the substitution finds nothing to replace. *)
Lemma sub_runs_cleaned b s :
  Forall (λ c, is_kept c = true ∨ c = 0x20%N) s → single_spaced s →
  (b = true → head s ≠ Some 0x20%N) →
  sub_runs (λ c, negb (is_kept c)) b s = s.
Proof.
  revert b. induction s as [|c s IH]; intros b Hc Hs Hb; [done|].
  inversion_clear Hc as [|?? Hc1 Hc2]. cbn [sub_runs].
  assert (single_spaced s) as Hs' by (by destruct s; [|destruct Hs]).
  destruct Hc1 as [Hk| ->].
  - rewrite Hk. cbn [negb]. f_equal. by apply IH.
  - cbn [negb is_kept]. rewrite space_not_kept. cbn [negb].
    destruct b; [by destruct Hb|]. f_equal. apply IH; [done|done|].
    intros _ Hh. destruct s as [|y s]; [done|].
    injection Hh as ->. by destruct Hs as [[] _].
Qed.

Lemma clean_title_idemp s : clean_title (clean_title s) = clean_title s.
Proof.
  destruct (clean_title_cleaned s) as (Hc & Hs & Ht).
  rewrite (clean_title_strip (clean_title s)).
  rewrite sub_runs_cleaned by done. by apply trimmed_strip.
Qed.

(** *** Normalizer *)
Lemma NORMALIZE_MAP_value k v :
  NORMALIZE_MAP !! k = Some v → NORMALIZE_MAP !! v = None.
Proof.
  unfold NORMALIZE_MAP at 1. intros H%elem_of_list_to_map_2.
  repeat (apply elem_of_cons in H as [[= -> ->]|H]);
    [| | | |by apply elem_of_nil in H]; vm_compute; reflexivity.
Qed.

Lemma normalize_word_fixed v :
  canonical v → NORMALIZE_MAP !! v = None → normalize_word v = v.
Proof.
  intros [Ht Hu] Hm. unfold normalize_word. rewrite (trimmed_strip _ Ht).
  case_bool_decide as He; [done|].
  destruct (fullmatch_latin v) eqn:Hl.
  - rewrite (Hu eq_refl), Hm. done.
  - by rewrite Hm.
Qed.

Lemma normalize_word_lookup raw : NORMALIZE_MAP !! normalize_word raw = None.
Proof.
  unfold normalize_word. case_bool_decide as He; [vm_compute; reflexivity|].
  set (w := if fullmatch_latin (strip raw) then upper (strip raw) else strip raw).
  destruct (NORMALIZE_MAP !! w) as [v|] eqn:Hv; [|done].
  by apply NORMALIZE_MAP_value in Hv.
Qed.

Lemma normalize_word_idemp raw :
  normalize_word (normalize_word raw) = normalize_word raw.
Proof.
  apply normalize_word_fixed;
    [apply normalize_word_canonical | apply normalize_word_lookup].
Qed.

(** *** What a token list can hold *)
Lemma elem_of_phrases_in_order stop l p :
  p ∈ phrases_in_order stop l →
  ∃ i a b, l !! i = Some a ∧ l !! (i + 1) = Some b ∧ merge_pair stop a b = Some p.
Proof.
  induction l as [|a l IH]; [by intros ?%elem_of_nil|].
  destruct l as [|b l]; [by intros ?%elem_of_nil|].
  cbn [phrases_in_order].
  assert (p ∈ phrases_in_order stop (b :: l) →
          ∃ i a0 b0, (a :: b :: l) !! i = Some a0
                     ∧ (a :: b :: l) !! (i + 1) = Some b0
                     ∧ merge_pair stop a0 b0 = Some p) as Hrest.
  { intros (i & a0 & b0 & H1 & H2 & H3)%IH. exists (S i), a0, b0. done. }
  destruct (merge_pair stop a b) as [q|] eqn:Hm; [|done].
  intros [->|H]%elem_of_cons; [|by apply Hrest].
  exists 0, a, b. done.
Qed.

Lemma elem_of_tokenize pseg lcut title stop t :
  t ∈ tokenize pseg lcut title stop →
  t ∈ (phrases_and_tokens pseg lcut title stop).1
  ∨ t ∈ (phrases_and_tokens pseg lcut title stop).2.
Proof.
  rewrite tokenize_phrases_and_tokens. intros Ht.
  apply (subseteq_take 40) in Ht.
  apply (proj1 (elem_of_first_seen _ _)) in Ht. by apply elem_of_app in Ht.
Qed.

Lemma phrases_and_tokens_phrase pseg lcut title stop p :
  p ∈ (phrases_and_tokens pseg lcut title stop).1 →
  lexical_ok stop p ∧ 2 ≤ length p ≤ 8.
Proof.
  unfold phrases_and_tokens. case_bool_decide; [by intros ?%elem_of_nil|].
  destruct (segment pseg lcut (clean_title title) stop) as [tokens pos_list].
  cbn [fst]. rewrite merge_phrases_in_order.
  intros (i & [w1 f1] & [w2 f2] & _ & _ & Hm)%elem_of_phrases_in_order.
  apply merge_pair_Some in Hm as [-> Hs]. unfold merge_spec in Hs. tauto.
Qed.

Lemma phrases_and_tokens_token pseg lcut title stop t :
  t ∈ (phrases_and_tokens pseg lcut title stop).2 →
  lexical_ok stop t ∧ canonical t.
Proof.
  unfold phrases_and_tokens. case_bool_decide; [by intros ?%elem_of_nil|].
  pose proof (segment_tokens pseg lcut (clean_title title) stop) as Ht.
  pose proof (segment_pos_list pseg lcut (clean_title title) stop) as Hp.
  destruct (segment pseg lcut (clean_title title) stop) as [tokens pos_list].
  cbn [fst snd] in *. subst tokens.
  intros ([w f] & -> & Hin)%list_elem_of_fmap.
  apply Hp in Hin as [[raw ->] Hl]. split; [done|].
  apply normalize_word_canonical.
Qed.

(** X1. The Cleaner's output holds only ideographs, Latin letters, digits
    and single spaces, and begins and ends with a character of the three
    classes. *)
Theorem clean_title_shape (s : list N) :
  Forall (λ c, is_kept c = true ∨ c = 0x20%N) (clean_title s)
  ∧ single_spaced (clean_title s)
  ∧ (∀ c, head (clean_title s) = Some c → is_kept c = true)
  ∧ (∀ c, last (clean_title s) = Some c → is_kept c = true).
Proof.
  destruct (clean_title_cleaned s) as (Hc & Hs & Hh & Hl).
  split; [done|]. split; [done|].
  rewrite Forall_forall in Hc.
  split; intros c Hx.
  - destruct (Hc c (head_Some_elem_of _ _ Hx)) as [Hk| ->]; [done|].
    by apply Hh in Hx.
  - destruct (Hc c (last_Some_elem_of _ _ Hx)) as [Hk| ->]; [done|].
    by apply Hl in Hx.
Qed.

(** X2. The Cleaner neither drops nor reorders an ideograph, letter or
    digit, and returns the empty string exactly for a title without any. *)
Theorem clean_title_keeps (s : list N) :
  filter (λ c, is_kept c = true) (clean_title s)
  = filter (λ c, is_kept c = true) s
  ∧ (clean_title s = [] ↔ Forall (λ c, is_kept c = false) s).
Proof. split; [apply filter_kept_clean_title | apply clean_title_empty]. Qed.

(** X3. Cleaning a cleaned title changes nothing. *)
Theorem clean_title_idempotent (s : list N) :
  clean_title (clean_title s) = clean_title s.
Proof. apply clean_title_idemp. Qed.

(** X4. The Normalizer is idempotent; what it returns is stripped, equals
    its own upper-casing when it is made of the letters [A-Za-z] only, and is
    no key of the variant table. *)
Theorem normalize_word_stable (raw : list N) :
  normalize_word (normalize_word raw) = normalize_word raw
  ∧ strip (normalize_word raw) = normalize_word raw
  ∧ (fullmatch_latin (normalize_word raw) = true →
     upper (normalize_word raw) = normalize_word raw)
  ∧ NORMALIZE_MAP !! normalize_word raw = None.
Proof.
  destruct (normalize_word_canonical raw) as [Ht Hu].
  split_and!; [apply normalize_word_idemp | by apply trimmed_strip | done
              | apply normalize_word_lookup].
Qed.

Lemma normalize_word_stable_witness :
  fullmatch_latin (normalize_word [0x61; 0x62]%N) = true
  ∧ upper (normalize_word [0x61; 0x62]%N) = normalize_word [0x61; 0x62]%N.
Proof.
  split; [reflexivity|].
  exact (proj1 (proj2 (proj2 (normalize_word_stable [0x61; 0x62]%N))) eq_refl).
Defined.

(** A word with a digit is not a match of [[A-Za-z]+] and keeps its
    case. *)
Example normalize_word_mixed :
  normalize_word [0x61; 0x31]%N = [0x61; 0x31]%N
  ∧ upper [0x61; 0x31]%N = [0x41; 0x31]%N
  ∧ normalize_word [0x61; 0x62]%N = [0x41; 0x42]%N.
Proof. split_and!; reflexivity. Qed.

Lemma tokenize_entry_ok pseg lcut title stop t :
  t ∈ tokenize pseg lcut title stop → lexical_ok stop t ∧ canonical t.
Proof.
  intros [Hp|Hk]%elem_of_tokenize; [|by apply phrases_and_tokens_token in Hk].
  pose proof Hp as Hp'. apply phrases_and_tokens_phrase in Hp as [Hl _].
  split; [done|]. revert Hp'. unfold phrases_and_tokens.
  case_bool_decide; [by intros ?%elem_of_nil|].
  destruct (segment pseg lcut (clean_title title) stop) as [tokens pos_list].
  cbn [fst]. rewrite merge_phrases_in_order.
  intros (i & [w1 f1] & [w2 f2] & _ & _ & Hm)%elem_of_phrases_in_order.
  apply merge_pair_Some in Hm as [-> _]. apply normalize_word_canonical.
Qed.

(** X5. Every entry of a title's token list passes the lexical rules
    against the stop set in use and is stripped; a phrase has 2 to 8
    characters, an entry with an ideograph 2 to 10, a purely Latin entry
    at least 2. *)
Theorem tokenize_entries (pseg : option (list N → list (list N * list N)))
    (lcut : list N → list (list N)) (title : list N) (stop : gset (list N))
    (t : list N) :
  t ∈ tokenize pseg lcut title stop →
  is_bad_token t stop = false
  ∧ strip t = t
  ∧ (t ∈ (phrases_and_tokens pseg lcut title stop).1 → 2 ≤ length t ≤ 8)
  ∧ (existsb is_cjk t = true → 2 ≤ length t ≤ 10)
  ∧ (fullmatch_latin t = true → 2 ≤ length t).
Proof.
  intros [Hl [Hc _]]%tokenize_entry_ok.
  split; [by apply is_bad_token_false|]. split; [by apply trimmed_strip|].
  split; [intros Hp; by apply phrases_and_tokens_phrase in Hp as [_ ?]|].
  destruct Hl as (_ & _ & _ & _ & Hlat & Hcjk & _).
  split; [done|]. intros Hf. destruct (decide (length t < 2)); [tauto | lia].
Qed.

Lemma tokenize_entries_witness :
  huawei ++ shouji ∈ tokenize (Some sample_cut) (λ _, []) (huawei ++ shouji) ∅
  ∧ is_bad_token (huawei ++ shouji) ∅ = false.
Proof.
  assert (huawei ++ shouji
          ∈ tokenize (Some sample_cut) (λ _, []) (huawei ++ shouji) ∅) as H.
  { vm_compute. apply list_elem_of_here. }
  split; [exact H|].
  exact (proj1 (tokenize_entries _ _ _ _ _ H)).
Defined.

(** *** Stop words *)
Lemma elem_of_load_stopwords txt w :
  w ∈ load_stopwords (Some txt) ↔
  ∃ line, line ∈ splitlines txt ∧ w = strip line ∧ w ≠ [].
Proof.
  simpl. rewrite elem_of_list_to_set, list_elem_of_fmap. split.
  - intros (line & -> & [Hne Hin]%list_elem_of_filter). eauto.
  - intros (line & Hin & -> & Hne). exists line.
    split; [done|]. by apply list_elem_of_filter.
Qed.

Lemma stop_words_cons l ls :
  stop_words (l :: ls) = stop_words [l] ∪ stop_words ls.
Proof.
  unfold stop_words. rewrite (filter_cons _ l ls), (filter_cons _ l []).
  destruct (decide (strip l ≠ [])); cbn [fmap list_fmap list_to_set filter];
    [|rewrite filter_nil; cbn; by rewrite (left_id_L ∅ (∪))].
  rewrite filter_nil. cbn [fmap list_fmap list_to_set].
  by rewrite (right_id_L ∅ (∪)).
Qed.

Lemma stop_words_blank ls : stop_words ([] :: ls) = stop_words ls.
Proof.
  rewrite stop_words_cons.
  assert (stop_words [[]] = ∅) as -> by done.
  by rewrite (left_id_L ∅ (∪)).
Qed.

Lemma splitlines_aux_nobreak n :
  ∀ s, length s ≤ n → ∀ cur,
    Forall (λ c, is_linebreak c = false) cur →
    Forall (Forall (λ c, is_linebreak c = false)) (splitlines_aux cur s).
Proof.
  induction n as [|n IH]; intros s Hn cur Hcur.
  - destruct s; [|simpl in Hn; lia]. cbn [splitlines_aux].
    destruct cur; [constructor|]. constructor; [|constructor].
    by apply Forall_reverse.
  - destruct s as [|c s]; cbn [splitlines_aux].
    + destruct cur; [constructor|]. constructor; [|constructor].
      by apply Forall_reverse.
    + cbn [length] in Hn. destruct (is_linebreak c) eqn:Hc.
      * constructor; [by apply Forall_reverse|].
        destruct s as [|c' s]; [constructor|]. cbn [length] in Hn.
        destruct ((c =? 0x0D)%N && (c' =? 0x0A)%N).
        -- apply IH; [lia | constructor].
        -- apply IH; [cbn [length]; lia | constructor].
      * apply IH; [lia|]. by constructor.
Qed.

Lemma splitlines_aux_join n :
  ∀ a, length a ≤ n → ∀ cur b,
    stop_words (splitlines_aux cur (a ++ 0x0A%N :: b))
    = stop_words (splitlines_aux cur a) ∪ stop_words (splitlines b).
Proof.
  assert (∀ cur b,
            stop_words (splitlines_aux cur (0x0A%N :: b))
            = stop_words (splitlines_aux cur []) ∪ stop_words (splitlines b))
    as Hnil.
  { intros cur b. cbn [splitlines_aux]. change (is_linebreak 0x0A) with true.
    cbv iota. rewrite stop_words_cons.
    assert (match b with
            | [] => []
            | c' :: s'' =>
                if ((0x0A =? 0x0D)%N && (c' =? 0x0A)%N)
                then splitlines_aux [] s'' else splitlines_aux [] b
            end = splitlines b) as -> by (by destruct b).
    destruct cur; [|done].
    change (reverse []) with (@nil N). cbn [splitlines_aux].
    assert (stop_words [[]] = ∅) as -> by done.
    assert (stop_words [] = ∅) as -> by done.
    done. }
  induction n as [|n IH]; intros a Hn cur b.
  - destruct a; [|simpl in Hn; lia]. apply Hnil.
  - destruct a as [|c a]; [apply Hnil|]. cbn [length] in Hn.
    cbn [app splitlines_aux]. destruct (is_linebreak c) eqn:Hc.
    + rewrite (stop_words_cons (reverse cur)).
      rewrite (stop_words_cons (reverse cur) (match a with [] => [] | _ => _ end)).
      rewrite <- (assoc_L (∪)). f_equal.
      destruct a as [|c' a]; cbn [app].
      * destruct ((c =? 0x0D)%N && (0x0A =? 0x0A)%N).
        -- assert (stop_words [] = ∅) as -> by done.
           by rewrite (left_id_L ∅ (∪)).
        -- rewrite (Hnil [] b). done.
      * cbn [length] in Hn. destruct ((c =? 0x0D)%N && (c' =? 0x0A)%N).
        -- apply IH. lia.
        -- apply (IH (c' :: a)). cbn [length]. lia.
    + apply IH. lia.
Qed.

(** X6. Every stop word is non-empty, stripped and free of line-break
    characters, and the stop set of two texts joined by a line feed is the
    union of their stop sets (a carriage return ending the first text forms
    one line boundary with the line feed). *)
Theorem load_stopwords_lines (a b w : list N) :
  (w ∈ load_stopwords (Some a) →
   w ≠ [] ∧ strip w = w ∧ Forall (λ c, is_linebreak c = false) w)
  ∧ load_stopwords (Some (a ++ [0x0A%N] ++ b))
    = load_stopwords (Some a) ∪ load_stopwords (Some b).
Proof.
  split.
  - intros (line & Hin & -> & Hne)%elem_of_load_stopwords.
    split; [done|]. split; [apply trimmed_strip, strip_trimmed|].
    pose proof (splitlines_aux_nobreak (length a) a (le_n _) [] (Forall_nil_2 _))
      as Hall.
    rewrite Forall_forall in Hall. specialize (Hall line Hin).
    destruct (strip_infix line) as (x & y & Hxy). rewrite Hxy in Hall.
    by apply Forall_app in Hall as [_ [? _]%Forall_app].
  - apply (splitlines_aux_join (length a) a (le_n _) [] b).
Qed.

Lemma load_stopwords_lines_witness :
  huawei ∈ load_stopwords (Some (huawei ++ [0x0D%N]))
  ∧ strip huawei = huawei
  ∧ load_stopwords (Some ((huawei ++ [0x0D%N]) ++ [0x0A%N] ++ shouji))
    = load_stopwords (Some (huawei ++ [0x0D%N])) ∪ load_stopwords (Some shouji).
Proof.
  assert (huawei ∈ load_stopwords (Some (huawei ++ [0x0D%N]))) as H.
  { apply elem_of_load_stopwords. exists huawei.
    split; [apply list_elem_of_here|]. split; [reflexivity | discriminate]. }
  split; [exact H|].
  destruct (load_stopwords_lines (huawei ++ [0x0D%N]) shouji huawei)
    as [Hw Hu].
  split; [exact (proj1 (proj2 (Hw H))) | exact Hu].
Defined.

(** X7. No stripped line of the stop-word file turns up in a token list
    built with the stop set loaded from it. *)
Theorem tokenize_stopwords (pseg : option (list N → list (list N * list N)))
    (lcut : list N → list (list N)) (title txt line : list N) :
  line ∈ splitlines txt →
  strip line ∉ tokenize pseg lcut title (load_stopwords (Some txt)).
Proof.
  intros Hin Ht. apply tokenize_entry_ok in Ht as [(Hne & Hs & _) _].
  apply Hs. apply elem_of_load_stopwords. eauto.
Qed.

Lemma tokenize_stopwords_witness :
  huawei ∈ splitlines (huawei ++ [0x0A%N])
  ∧ strip huawei
    ∉ tokenize (Some sample_cut) (λ _, []) (huawei ++ shouji)
        (load_stopwords (Some (huawei ++ [0x0A%N]))).
Proof.
  assert (huawei ∈ splitlines (huawei ++ [0x0A%N])) as H.
  { vm_compute. apply list_elem_of_here. }
  split; [exact H|].
  exact (tokenize_stopwords (Some sample_cut) (λ _, []) (huawei ++ shouji)
           (huawei ++ [0x0A%N]) huawei H).
Defined.

(** *** Checks of the merging loop that the filter has already made *)
Lemma BAD_COMPONENT_BAD_WORDS w : w ∈ BAD_COMPONENT → w ∈ BAD_WORDS.
Proof.
  unfold BAD_COMPONENT. rewrite elem_of_list_to_set. intros H.
  repeat (apply elem_of_cons in H as [->|H]);
    [..|by apply elem_of_nil in H];
    apply (bool_decide_unpack _); vm_compute; exact I.
Qed.

(** X8. On the filtered sequence of a title the merging loop's test for
    dangerous components never fires, since each is blacklisted, and a
    concatenation is never shorter than 2: a pair merges exactly when
    neither token matches the kinship pattern, both tags are noun-like and
    the concatenation passes the lexical rules with at most 8 characters. *)
Theorem merge_pair_filtered (pseg : option (list N → list (list N * list N)))
    (lcut : list N → list (list N)) (title : list N) (stop : gset (list N))
    (i : nat) (w1 f1 w2 f2 : list N) :
  (segment pseg lcut title stop).2 !! i = Some (w1, f1) →
  (segment pseg lcut title stop).2 !! (i + 1) = Some (w2, f2) →
  (w1 ∉ BAD_COMPONENT) ∧ (w2 ∉ BAD_COMPONENT)
  ∧ 2 ≤ length (w1 ++ w2)
  ∧ (merge_pair stop (w1, f1) (w2, f2) = Some (w1 ++ w2) ↔
     KINSHIP_search w1 = false ∧ KINSHIP_search w2 = false
     ∧ tag_noun_like f1 ∧ tag_noun_like f2
     ∧ lexical_ok stop (w1 ++ w2) ∧ length (w1 ++ w2) ≤ 8).
Proof.
  intros H1 H2.
  pose proof (list_elem_of_lookup_2 _ _ _ H1) as Hin1.
  pose proof (list_elem_of_lookup_2 _ _ _ H2) as Hin2.
  apply segment_pos_list in Hin1 as [[r1 Hr1] Hl1].
  apply segment_pos_list in Hin2 as [[r2 Hr2] Hl2].
  assert (w1 ∉ BAD_COMPONENT) as Hc1.
  { intros H%BAD_COMPONENT_BAD_WORDS. by destruct Hl1 as (_ & _ & ? & _). }
  assert (w2 ∉ BAD_COMPONENT) as Hc2.
  { intros H%BAD_COMPONENT_BAD_WORDS. by destruct Hl2 as (_ & _ & ? & _). }
  assert (2 ≤ length (w1 ++ w2)) as Hlen.
  { rewrite length_app. destruct Hl1 as [Hn1 _], Hl2 as [Hn2 _].
    destruct w1, w2; simpl; try done; lia. }
  split; [done|]. split; [done|]. split; [done|].
  assert (normalize_word (w1 ++ w2) = w1 ++ w2) as Hn.
  { apply (normalize_word_concat stop); [| |done|done].
    - rewrite Hr1. apply normalize_word_canonical.
    - rewrite Hr2. apply normalize_word_canonical. }
  rewrite merge_pair_Some. unfold merge_spec. rewrite Hn. intuition lia.
Qed.

Lemma merge_pair_filtered_witness :
  (segment (Some sample_cut) (λ _, []) (huawei ++ shouji) ∅).2 !! 0
    = Some (huawei, [0x6E; 0x7A]%N)
  ∧ (segment (Some sample_cut) (λ _, []) (huawei ++ shouji) ∅).2 !! (0 + 1)
    = Some (shouji, [0x6E]%N)
  ∧ 2 ≤ length (huawei ++ shouji).
Proof.
  split; [reflexivity|]. split; [reflexivity|].
  exact (proj1 (proj2 (proj2
    (merge_pair_filtered (Some sample_cut) (λ _, []) (huawei ++ shouji) ∅
       0 huawei [0x6E; 0x7A]%N shouji [0x6E]%N eq_refl eq_refl)))).
Defined.

End CleanerSpec.

(** *** Mapper and reducer together *)
Module MapReduceSpec.
Import Py Seq Mapper Reducer Shapes PyFacts SeqFacts MapperSpec ReducerSpec.

(** *** The mapper's output as the reducer's input *)
Lemma weight_of_rank_pos r : (1 ≤ weight_of_rank r)%Z.
Proof. rewrite weight_of_rank_max. lia. Qed.

Lemma weight_and_words_pos line : (1 ≤ (weight_and_words line).1)%Z.
Proof.
  unfold weight_and_words.
  destruct (split1 0x2C line) as [|a [|b [|c l]]]; simpl; try lia.
  destruct (int a); simpl; [apply weight_of_rank_pos | lia].
Qed.

Lemma map_line_shape line :
  ∃ k toks, (1 ≤ k)%Z
    ∧ Forall (λ w, w ≠ [] ∧ Forall (λ c, isspace c = false) w) toks
    ∧ map_line line = (λ w, fmt_record w k) <$> toks.
Proof.
  unfold map_line.
  destruct (bool_decide (strip line = []) || negb (contains 0x2C (strip line))).
  - exists 1%Z, []. split; [lia|]. split; [constructor | done].
  - pose proof (weight_and_words_pos (strip line)) as Hk.
    destruct (weight_and_words (strip line)) as [k words]. simpl in Hk.
    exists k, (split_ws words). split; [done|].
    rewrite filter_nonempty_split_ws. split; [|done].
    apply Forall_and. split; [apply split_ws_nonempty | apply split_ws_nospace].
Qed.

Lemma nospace_term_ok w :
  w ≠ [] → Forall (λ c, isspace c = false) w → term_ok w.
Proof.
  intros Hne Hw. rewrite Forall_forall in Hw. split; [done|]. split.
  - intros c Hc. by apply Hw, head_Some_elem_of.
  - intros H%Hw. done.
Qed.

Lemma records_app l1 l2 : records (l1 ++ l2) = records l1 ++ records l2.
Proof. apply omap_app. Qed.

Lemma mapper_records_shape stdin :
  ∃ recs,
    mapper stdin = render <$> recs
    ∧ records (mapper stdin) = recs
    ∧ Forall (λ r, r.1 ≠ [] ∧ Forall (λ c, isspace c = false) r.1
                   ∧ (1 ≤ r.2)%Z) recs.
Proof.
  induction stdin as [|line stdin (recs & Hm & Hr & Hall)].
  - exists []. split; [done|]. split; [done | constructor].
  - destruct (map_line_shape line) as (k & toks & Hk & Htoks & Hl).
    exists (((λ w, (w, k)) <$> toks) ++ recs).
    unfold mapper in *. rewrite bind_cons, Hl.
    assert ((λ w, fmt_record w k) <$> toks = render <$> ((λ w, (w, k)) <$> toks))
      as Heq by (by rewrite <- list_fmap_compose).
    split; [by rewrite fmap_app, Hm, Heq|].
    split.
    + rewrite records_app, Hr. f_equal. rewrite Heq. apply records_render.
      apply Forall_fmap. eapply Forall_impl; [exact Htoks|].
      intros w [Hne Hw]. by apply nospace_term_ok.
    + apply Forall_app. split; [|done]. apply Forall_fmap.
      eapply Forall_impl; [exact Htoks|]. intros w [Hne Hw]. done.
Qed.

(** X9. Every line the mapper writes is read by the reducer as one record:
    reading the mapper's output and rendering the records gives the output
    back, and no line is skipped. *)
Theorem mapper_output_parses (stdin : list (list N)) :
  render <$> records (mapper stdin) = mapper stdin
  ∧ length (records (mapper stdin)) = length (mapper stdin).
Proof.
  destruct (mapper_records_shape stdin) as (recs & Hm & Hr & _).
  rewrite Hr, Hm. split; [done | by rewrite length_fmap].
Qed.

(** X10. A record written by the mapper has a non-empty term without
    whitespace and a weight of at least 1. *)
Theorem mapper_record_bounds (stdin : list (list N)) :
  Forall (λ r, r.1 ≠ [] ∧ Forall (λ c, isspace c = false) r.1 ∧ (1 ≤ r.2)%Z)
    (records (mapper stdin)).
Proof.
  destruct (mapper_records_shape stdin) as (recs & _ & Hr & Hall).
  by rewrite Hr.
Qed.

(** *** The reducer on its own output *)
Lemma reduce_records_head w s recs :
  ∃ s' tl, reduce_records (Some (w, s)) recs = (w, s') :: tl.
Proof.
  revert s. induction recs as [|[word cnt] rest IH]; intros s; simpl; [eauto|].
  case_bool_decide; [apply IH | eauto].
Qed.

Lemma reduce_records_neighbours cur recs :
  distinct_neighbours (reduce_records cur recs).
Proof.
  revert cur. induction recs as [|[word cnt] rest IH]; intros cur.
  - by destruct cur.
  - cbn [reduce_records]. destruct cur as [[w s]|]; [|apply IH].
    case_bool_decide as Hw; [apply IH|].
    destruct (reduce_records_head word cnt rest) as (s' & tl & Heq).
    specialize (IH (Some (word, cnt))). rewrite Heq in *. done.
Qed.

Lemma reduce_records_fixed c l :
  distinct_neighbours (c :: l) → reduce_records (Some c) l = c :: l.
Proof.
  revert c. induction l as [|[word cnt] l IH]; intros [w s] Hd; [done|].
  cbn [reduce_records]. destruct Hd as [Hne Hd]. cbn [fst] in Hne.
  rewrite bool_decide_eq_false_2 by done. f_equal. by apply IH.
Qed.

Lemma reduce_records_idemp cur recs :
  reduce_records None (reduce_records cur recs) = reduce_records cur recs.
Proof.
  pose proof (reduce_records_neighbours cur recs) as Hd.
  destruct (reduce_records cur recs) as [|[w s] l]; [done|].
  by apply (reduce_records_fixed (w, s)).
Qed.

(** X11. Reducing the reducer's output gives it back: the reducer is
    idempotent on any input. *)
Theorem reducer_idempotent (stdin : list (list N)) :
  reducer (reducer stdin) = reducer stdin.
Proof.
  rewrite (reducer_reduce_records (reducer stdin)), records_reducer.
  by rewrite reduce_records_idemp, reducer_reduce_records.
Qed.

Lemma length_reduce_records cur recs :
  length (reduce_records cur recs)
  ≤ length recs + (if cur is Some _ then 1 else 0).
Proof.
  revert cur. induction recs as [|[word cnt] rest IH]; intros cur.
  - destruct cur; simpl; lia.
  - cbn [reduce_records]. destruct cur as [[w s]|].
    + case_bool_decide.
      * etrans; [apply IH | simpl; lia].
      * cbn [length]. rewrite Nat.add_succ_l. apply le_n_S.
        exact (IH (Some (word, cnt))).
    + etrans; [apply IH | simpl; lia].
Qed.

Lemma length_omap_le {A B} (f : A → option B) (l : list A) :
  length (omap f l) ≤ length l.
Proof.
  induction l as [|x l IH]; [done|]. csimpl. destruct (f x); csimpl; lia.
Qed.

(** X12. The reducer writes at most one line per line it reads, none
    exactly when no input line parses, and never two neighbouring lines
    for the same term. *)
Theorem reducer_output_runs (stdin : list (list N)) :
  length (reducer stdin) ≤ length (records stdin)
  ∧ length (records stdin) ≤ length stdin
  ∧ (reducer stdin = [] ↔ records stdin = [])
  ∧ distinct_neighbours (records (reducer stdin)).
Proof.
  rewrite records_reducer. rewrite reducer_reduce_records, length_fmap.
  split_and!.
  - etrans; [apply (length_reduce_records None)|]. lia.
  - unfold records. apply length_omap_le.
  - destruct (records stdin) as [|[w c] rest]; [done|].
    cbn [reduce_records].
    destruct (reduce_records_head w c rest) as (s' & tl & ->). done.
  - apply reduce_records_neighbours.
Qed.

Lemma reduce_records_lower (m : Z) cur recs :
  (∀ c, cur = Some c → (m ≤ c.2)%Z) → (0 ≤ m)%Z →
  Forall (λ r, (m ≤ r.2)%Z) recs →
  Forall (λ r, (m ≤ r.2)%Z) (reduce_records cur recs).
Proof.
  intros Hc Hm Hr. revert cur Hc.
  induction Hr as [|[w n] recs Hw _ IH]; intros cur Hc.
  - destruct cur as [c|]; simpl; [|constructor].
    constructor; [by apply Hc | constructor].
  - cbn [reduce_records]. cbn [snd] in Hw. destruct cur as [[w' s]|].
    + pose proof (Hc (w', s) eq_refl) as Hs. cbn [snd] in Hs.
      case_bool_decide.
      * apply IH. intros c [= <-]. cbn [snd]. lia.
      * constructor; [done|]. apply IH. by intros c [= <-].
    + apply IH. by intros c [= <-].
Qed.

(** X13. If every weight read is at least 1, so is every total written. *)
Theorem reducer_totals_positive (stdin : list (list N)) :
  Forall (λ r, (1 ≤ r.2)%Z) (records stdin) →
  Forall (λ r, (1 ≤ r.2)%Z) (records (reducer stdin)).
Proof.
  intros H. rewrite records_reducer.
  apply reduce_records_lower; [done | lia | done].
Qed.

Lemma reducer_totals_positive_witness :
  Forall (λ r, (1 ≤ r.2)%Z)
    (records [[0x61; 0x09; 0x31]; [0x61; 0x09; 0x32]]%N)
  ∧ Forall (λ r, (1 ≤ r.2)%Z)
      (records (reducer [[0x61; 0x09; 0x31]; [0x61; 0x09; 0x32]]%N)).
Proof.
  assert (Forall (λ r, (1 ≤ r.2)%Z)
            (records [[0x61; 0x09; 0x31]; [0x61; 0x09; 0x32]]%N)) as H.
  { vm_compute. repeat constructor; discriminate. }
  split; [exact H|]. exact (reducer_totals_positive _ H).
Defined.

(** *** The order of the shuffle *)
Lemma total_perm t recs1 recs2 :
  recs1 ≡ₚ recs2 → total t recs1 = total t recs2.
Proof.
  induction 1 as [|[w c] l1 l2 _ IH|[w1 c1] [w2 c2] l|l1 l2 l3 _ IH1 _ IH2];
    cbn [total]; [done| |lia|congruence].
  by rewrite IH.
Qed.

Lemma first_seen_perm l1 l2 : l1 ≡ₚ l2 → first_seen l1 ≡ₚ first_seen l2.
Proof.
  intros Hp. apply NoDup_Permutation; [apply NoDup_first_seen..|].
  intros x. rewrite !elem_of_first_seen. by rewrite Hp.
Qed.

Lemma aggregate_perm recs1 recs2 :
  recs1 ≡ₚ recs2 → aggregate recs1 ≡ₚ aggregate recs2.
Proof.
  intros Hp. unfold aggregate.
  rewrite (list_fmap_ext (λ t, (t, total t recs1)) (λ t, (t, total t recs2))).
  - apply fmap_Permutation, first_seen_perm. by rewrite Hp.
  - intros _ t _. f_equal. by apply total_perm.
Qed.

(** X14. Two grouped orderings of the same input lines give the same output
    lines, up to their order. *)
Theorem reducer_shuffle (stdin1 stdin2 : list (list N)) :
  stdin1 ≡ₚ stdin2 →
  grouped ((records stdin1).*1) → grouped ((records stdin2).*1) →
  reducer stdin1 ≡ₚ reducer stdin2.
Proof.
  intros Hp Hg1 Hg2.
  assert (∀ stdin, grouped ((records stdin).*1) →
            reducer stdin = render <$> aggregate (records stdin)) as Hagg.
  { intros stdin Hg. rewrite reducer_reduce_records. f_equal.
    destruct (records stdin) as [|[w c] rest]; [done|].
    simpl. by apply reduce_records_grouped. }
  rewrite (Hagg _ Hg1), (Hagg _ Hg2).
  apply fmap_Permutation, aggregate_perm. unfold records. by rewrite Hp.
Qed.

Lemma reducer_shuffle_witness :
  let stdin1 := [[0x61; 0x09; 0x31]; [0x61; 0x09; 0x32]; [0x62; 0x09; 0x33]]%N in
  let stdin2 := [[0x62; 0x09; 0x33]; [0x61; 0x09; 0x32]; [0x61; 0x09; 0x31]]%N in
  stdin1 ≡ₚ stdin2
  ∧ grouped ((records stdin1).*1) ∧ grouped ((records stdin2).*1)
  ∧ reducer stdin1 ≡ₚ reducer stdin2.
Proof.
  set (a1 := [0x61; 0x09; 0x31]%N). set (a2 := [0x61; 0x09; 0x32]%N).
  set (b3 := [0x62; 0x09; 0x33]%N).
  assert ([a1; a2; b3] ≡ₚ [b3; a2; a1]) as Hp.
  { apply (Permutation_trans (l' := [a1; b3; a2])).
    - apply Permutation_skip, Permutation_swap.
    - apply (Permutation_trans (l' := [b3; a1; a2])).
      + apply Permutation_swap.
      + apply Permutation_skip, Permutation_swap. }
  assert (grouped ((records [a1; a2; b3]).*1)) as Hg1.
  { intros i j k x Hle Hi Hk.
    destruct i as [|[|[|i]]], j as [|[|[|j]]], k as [|[|[|k]]];
      vm_compute in Hi, Hk |- *; try lia; congruence. }
  assert (grouped ((records [b3; a2; a1]).*1)) as Hg2.
  { intros i j k x Hle Hi Hk.
    destruct i as [|[|[|i]]], j as [|[|[|j]]], k as [|[|[|k]]];
      vm_compute in Hi, Hk |- *; try lia; congruence. }
  split; [exact Hp|]. split; [exact Hg1|]. split; [exact Hg2|].
  exact (reducer_shuffle _ _ Hp Hg1 Hg2).
Defined.

End MapReduceSpec.

(** *** The selector on the reducer's output *)
Module SelectorSpec.
Import Py Seq Reducer Web PyFacts SeqFacts ReducerSpec WebSpec.

(** *** What the selector leaves out *)
Lemma top20_split txt :
  sort_desc (parsed txt) = parse_top20 (Some txt) ++ drop 20 (sort_desc (parsed txt)).
Proof. unfold parse_top20. by rewrite take_drop. Qed.

(** X15. Nothing the selector leaves out outweighs anything it returns: the
    parsed entries are the result and a remainder, and every entry of the
    remainder weighs at most as much as every entry of the result. *)
Theorem top20_dominates (txt : list N) :
  parsed txt ≡ₚ parse_top20 (Some txt) ++ drop 20 (sort_desc (parsed txt))
  ∧ (∀ e e', e ∈ parse_top20 (Some txt) →
             e' ∈ drop 20 (sort_desc (parsed txt)) →
             (count e' ≤ count e)%Z)
  ∧ (length (parsed txt) ≤ 20 → parse_top20 (Some txt) ≡ₚ parsed txt).
Proof.
  pose proof (sort_desc_sorted (parsed txt)) as Hs.
  rewrite top20_split in Hs. split; [|split].
  - rewrite <- top20_split. symmetry. apply sort_desc_perm.
  - intros e e' He He'.
    by apply (StronglySorted_app_1_elem_of _ _ _ _ _ Hs He He').
  - intros Hlen. unfold parse_top20.
    rewrite take_ge; [apply sort_desc_perm|].
    by rewrite (Permutation_length (sort_desc_perm _)).
Qed.

Lemma top20_dominates_witness :
  length (parsed [0x61; 0x09; 0x31; 0x0A; 0x62; 0x09; 0x33]%N) ≤ 20
  ∧ parse_top20 (Some [0x61; 0x09; 0x31; 0x0A; 0x62; 0x09; 0x33]%N)
    ≡ₚ parsed [0x61; 0x09; 0x31; 0x0A; 0x62; 0x09; 0x33]%N.
Proof.
  assert (length (parsed [0x61; 0x09; 0x31; 0x0A; 0x62; 0x09; 0x33]%N) ≤ 20)
    as H by (vm_compute; lia).
  split; [exact H|].
  exact (proj2 (proj2 (top20_dominates _)) H).
Defined.

(** *** The order of the lines of the file *)
Lemma sort_desc_counts l :
  StronglySorted (flip Z.le) (count <$> sort_desc l).
Proof.
  apply (StronglySorted_fmap count desc); [|apply sort_desc_sorted].
  intros a b Hab. exact Hab.
Qed.

Lemma sort_desc_counts_perm l1 l2 :
  l1 ≡ₚ l2 → count <$> sort_desc l1 = count <$> sort_desc l2.
Proof.
  intros Hp. apply (StronglySorted_unique_strong (flip Z.le));
    [|apply sort_desc_counts..|].
  - unfold flip. intros x1 x2 _ _ H1 H2. lia.
  - apply fmap_Permutation. by rewrite !sort_desc_perm.
Qed.

(** X16. The weights the selector shows do not depend on the order of the
    lines of the file: permuting the lines leaves the list of weights
    unchanged (the terms of equal weight may trade places). *)
Theorem top20_counts_order (txt1 txt2 : list N) :
  splitlines txt1 ≡ₚ splitlines txt2 →
  count <$> parse_top20 (Some txt1) = count <$> parse_top20 (Some txt2).
Proof.
  intros Hp. unfold parse_top20. rewrite !fmap_take. f_equal.
  apply sort_desc_counts_perm. unfold parsed. by rewrite Hp.
Qed.

Lemma top20_counts_order_witness :
  let txt1 := [0x61; 0x09; 0x31; 0x0A; 0x62; 0x09; 0x33]%N in
  let txt2 := [0x62; 0x09; 0x33; 0x0A; 0x61; 0x09; 0x31]%N in
  splitlines txt1 ≡ₚ splitlines txt2
  ∧ count <$> parse_top20 (Some txt1) = count <$> parse_top20 (Some txt2).
Proof.
  assert (splitlines [0x61; 0x09; 0x31; 0x0A; 0x62; 0x09; 0x33]%N
          ≡ₚ splitlines [0x62; 0x09; 0x33; 0x0A; 0x61; 0x09; 0x31]%N) as Hp.
  { vm_compute. apply Permutation_swap. }
  split; [exact Hp|]. exact (top20_counts_order _ _ Hp).
Defined.

(** *** The reducer's output as the selector's file *)
Lemma splitlines_aux_line cur l rest :
  Forall (λ c, is_linebreak c = false) l →
  splitlines_aux cur (l ++ 0x0A%N :: rest)
  = (reverse cur ++ l) :: splitlines rest.
Proof.
  intros Hl. revert cur. induction Hl as [|c l Hc _ IH]; intros cur.
  - cbn [app splitlines_aux]. rewrite app_nil_r.
    replace (is_linebreak 0x0A) with true by done. f_equal.
    by destruct rest.
  - cbn [app splitlines_aux]. rewrite Hc, IH, reverse_cons, <- app_assoc. done.
Qed.

Lemma splitlines_lines (ls : list (list N)) :
  Forall (Forall (λ c, is_linebreak c = false)) ls →
  splitlines (concat ((λ l, l ++ [0x0A%N]) <$> ls)) = ls.
Proof.
  induction 1 as [|l ls Hl _ IH]; [done|].
  rewrite fmap_cons, concat_cons, <- app_assoc. cbn [app].
  unfold splitlines at 1. rewrite splitlines_aux_line by done.
  by rewrite IH.
Qed.

Lemma uint_codes_nobreak d : Forall (λ c, is_linebreak c = false) (uint_codes d).
Proof. induction d; simpl; by constructor. Qed.

Lemma fmt_d_nobreak n : Forall (λ c, is_linebreak c = false) (fmt_d n).
Proof.
  destruct n; simpl; [by repeat constructor | apply uint_codes_nobreak|].
  constructor; [done | apply uint_codes_nobreak].
Qed.

Lemma parse_entry_record w n :
  0x09%N ∉ w → parse_entry (w ++ 0x09%N :: fmt_d n) = Some (Entry w n).
Proof.
  intros Hw. apply parse_entry_Some. exists (fmt_d n).
  split; [by apply partition_at_app | apply int_fmt_d].
Qed.

Lemma reduce_records_terms (P : list N → Prop) cur recs :
  (∀ c, cur = Some c → P c.1) →
  Forall (λ r, P r.1) recs →
  Forall (λ r, P r.1) (reduce_records cur recs).
Proof.
  intros Hc Hr. revert cur Hc.
  induction Hr as [|[w n] recs Hw _ IH]; intros cur Hc.
  - destruct cur as [c|]; simpl; [|constructor].
    constructor; [by apply Hc | constructor].
  - cbn [reduce_records]. destruct cur as [[w' s]|].
    + case_bool_decide.
      * apply IH. intros c [= <-]. by apply (Hc (w', s)).
      * constructor; [by apply (Hc (w', s))|].
        apply IH. by intros c [= <-].
    + apply IH. by intros c [= <-].
Qed.

Lemma parsed_rendered recs :
  Forall (λ r, (0x09%N ∉ r.1) ∧ Forall (λ c, is_linebreak c = false) r.1) recs →
  parsed (concat (render <$> recs)) = (λ r, Entry r.1 r.2) <$> recs.
Proof.
  intros Hr. unfold parsed.
  assert (render <$> recs
          = (λ l, l ++ [0x0A%N]) <$> ((λ r, r.1 ++ 0x09%N :: fmt_d r.2) <$> recs))
    as ->.
  { rewrite <- list_fmap_compose. apply list_fmap_ext. intros _ [w n] _.
    unfold render, fmt_record. cbn. by rewrite <- !app_assoc. }
  rewrite splitlines_lines.
  - induction Hr as [|[w n] recs [Hw _] _ IH]; [done|].
    rewrite !fmap_cons. cbn [omap list_omap fst snd].
    rewrite parse_entry_record by done. f_equal. exact IH.
  - apply Forall_fmap. eapply Forall_impl; [exact Hr|].
    intros [w n] [_ Hw]. cbn. apply Forall_app. split; [done|].
    constructor; [done | apply fmt_d_nobreak].
Qed.

Lemma parsed_reducer stdin :
  Forall (λ r, Forall (λ c, is_linebreak c = false) r.1) (records stdin) →
  parsed (concat (reducer stdin))
  = (λ r, Entry r.1 r.2) <$> reduce_records None (records stdin).
Proof.
  intros Hb. rewrite reducer_reduce_records. apply parsed_rendered.
  apply Forall_and. split.
  - apply (reduce_records_terms (λ w, 0x09%N ∉ w)); [done|].
    eapply Forall_impl; [apply records_term_ok|]. by intros r (_ & _ & ?).
  - by apply (reduce_records_terms (Forall (λ c, is_linebreak c = false))).
Qed.

(** X17. The selector reads the reducer's output back in full: when no term
    holds a line-break character, the entries parsed from the concatenated
    output are the records of the fold, in order. *)
Theorem reducer_output_parsed (stdin : list (list N)) :
  Forall (λ r, Forall (λ c, is_linebreak c = false) r.1) (records stdin) →
  parsed (concat (reducer stdin))
  = (λ r, Entry r.1 r.2) <$> reduce_records None (records stdin).
Proof. apply parsed_reducer. Qed.

Lemma reducer_output_parsed_witness :
  let stdin := [[0x61; 0x09; 0x31]; [0x61; 0x09; 0x32]; [0x62; 0x09; 0x33]]%N in
  Forall (λ r, Forall (λ c, is_linebreak c = false) r.1) (records stdin)
  ∧ parsed (concat (reducer stdin)) = [Entry [0x61%N] 3; Entry [0x62%N] 3].
Proof.
  assert (Forall (λ r, Forall (λ c, is_linebreak c = false) r.1)
            (records [[0x61; 0x09; 0x31]; [0x61; 0x09; 0x32];
                      [0x62; 0x09; 0x33]]%N)) as H.
  { vm_compute. repeat constructor. }
  split; [exact H|]. exact (reducer_output_parsed _ H).
Defined.

(** A form feed inside a term is a line boundary for the selector: the
    reducer's line for the term [a FF b] is read as an entry for [b]. *)
Example term_with_line_break :
  reducer [[0x61; 0x0C; 0x62; 0x09; 0x33]]%N
    = [[0x61; 0x0C; 0x62; 0x09; 0x33; 0x0A]]%N
  ∧ parsed (concat (reducer [[0x61; 0x0C; 0x62; 0x09; 0x33]]%N))
    = [Entry [0x62%N] 3].
Proof. split; reflexivity. Qed.

End SelectorSpec.

Module PipelineSpec.
Import Py Seq Mapper Reducer Segment Web Shapes Fetch PyFacts SeqFacts MapperSpec
  ReducerSpec SegmentSpec WebSpec CleanerSpec MapReduceSpec SelectorSpec.


(** *** Characters *)
Lemma is_linebreak_isspace c : is_linebreak c = true → isspace c = true.
Proof.
  unfold is_linebreak, isspace. rewrite !orb_true_iff, !in_range_spec, !N.eqb_eq.
  lia.
Qed.

Lemma nospace_nobreak w :
  Forall (λ c, isspace c = false) w → Forall (λ c, is_linebreak c = false) w.
Proof.
  intros H. eapply Forall_impl; [exact H|]. intros c Hc.
  destruct (is_linebreak c) eqn:Hb; [|done].
  apply is_linebreak_isspace in Hb. congruence.
Qed.

Lemma uint_codes_digits d :
  Forall (λ c, in_range 0x30 0x39 c = true) (uint_codes d).
Proof. induction d; simpl; by constructor. Qed.

Lemma ascii_digit_facts c :
  in_range 0x30 0x39 c = true →
  isdigit_char c = true ∧ isspace c = false ∧ is_linebreak c = false
  ∧ c ≠ 0x2C%N.
Proof.
  intros [H1 H2]%in_range_spec.
  assert (c = 0x30 ∨ c = 0x31 ∨ c = 0x32 ∨ c = 0x33 ∨ c = 0x34 ∨ c = 0x35
          ∨ c = 0x36 ∨ c = 0x37 ∨ c = 0x38 ∨ c = 0x39)%N as Hc by lia.
  repeat destruct Hc as [->|Hc]; try subst c; done.
Qed.

(** The rank written for the title at index [i]. *)
Lemma rank_digits i :
  let d := fmt_d (Z.of_nat (S i)) in
  d ≠ [] ∧ Forall (λ c, in_range 0x30 0x39 c = true) d.
Proof.
  cbn zeta. split; [apply fmt_d_nonempty|].
  rewrite Nat2Z.inj_succ. unfold Z.succ.
  destruct (Z.of_nat i + 1)%Z eqn:Hz; [lia| |lia].
  apply uint_codes_digits.
Qed.


(** *** What [save_hot] writes and what [segment.py] reads *)
Lemma save_hot_lines titles :
  Forall (Forall (λ c, is_linebreak c = false)) titles →
  splitlines (save_hot titles) = imap saved_line titles.
Proof.
  intros Ht. unfold save_hot.
  assert (imap (λ i title,
                  fmt_d (Z.of_nat (S i)) ++ [0x2C%N] ++ title ++ [0x0A%N])
               titles
          = (λ l, l ++ [0x0A%N]) <$> imap saved_line titles) as ->.
  { rewrite fmap_imap. apply imap_ext. intros i t _.
    unfold saved_line. cbn. by rewrite <- app_assoc. }
  apply splitlines_lines.
  apply Forall_forall. intros l (i & t & -> & Hi)%elem_of_lookup_imap.
  unfold saved_line. apply Forall_app. split.
  - destruct (rank_digits i) as [_ Hd]. eapply Forall_impl; [exact Hd|].
    intros c Hc. by apply ascii_digit_facts in Hc as (_ & _ & ? & _).
  - constructor; [done|]. rewrite Forall_forall in Ht.
    by apply Ht, (list_elem_of_lookup_2 _ i).
Qed.

Lemma seg_line_saved pseg lcut stop i title :
  trimmed title →
  seg_line pseg lcut stop (saved_line i title)
  = if bool_decide (tokenize pseg lcut title stop = []) then None
    else Some (fmt_d (Z.of_nat (S i)) ++ [0x2C%N]
               ++ join [0x20%N] (tokenize pseg lcut title stop)).
Proof.
  intros Ht. destruct (rank_digits i) as [Hne Hd]. cbn zeta in *.
  unfold saved_line. set (d := fmt_d (Z.of_nat (S i))) in *.
  assert (Forall (λ c, isspace c = false) d) as Hsp.
  { eapply Forall_impl; [exact Hd|]. intros c Hc.
    by apply ascii_digit_facts in Hc as (_ & ? & _). }
  assert (0x2C%N ∉ d) as Hcomma.
  { intros Hin. rewrite Forall_forall in Hd. apply Hd in Hin.
    by apply ascii_digit_facts in Hin as (_ & _ & _ & ?). }
  assert (trimmed (d ++ 0x2C%N :: title)) as Hline.
  { apply (trimmed_app d (0x2C%N :: title)); [by apply trimmed_nospace|].
    destruct Ht as [_ Hl]. split; intros c.
    - by intros [= <-].
    - rewrite last_cons. destruct (last title) as [y|]; [|by intros [= <-]].
      intros [= <-]. by apply Hl. }
  unfold seg_line. rewrite (trimmed_strip _ Hline).
  rewrite bool_decide_eq_false_2 by (by destruct d).
  rewrite (contains_partition _ _ d title) by (by apply partition_at_app).
  unfold split1. rewrite partition_at_app by done. cbn [orb negb].
  rewrite (trimmed_strip d) by (by apply trimmed_nospace).
  rewrite (trimmed_strip title) by done.
  assert (isdigit d = true) as ->; [|done].
  unfold isdigit. destruct d as [|c d']; [done|].
  apply forallb_forall. intros x Hx%list_elem_of_In.
  rewrite Forall_forall in Hd.
  by apply Hd, ascii_digit_facts in Hx as (? & _).
Qed.

(** X18. What [save_hot] writes, [segment.py] reads back: for stripped
    titles without line breaks the file has one line [i,title] per title,
    [i] counting from 1; each line passes the rank test, and its output
    line, if the title yields any token, carries the same rank. *)
Theorem save_hot_segmented (pseg : option (list N → list (list N * list N)))
    (lcut : list N → list (list N)) (stop : gset (list N))
    (titles : list (list N)) :
  Forall (λ t, trimmed t ∧ Forall (λ c, is_linebreak c = false) t) titles →
  splitlines (save_hot titles) = imap saved_line titles
  ∧ (∀ i title, titles !! i = Some title →
       seg_line pseg lcut stop (saved_line i title)
       = if bool_decide (tokenize pseg lcut title stop = []) then None
         else Some (fmt_d (Z.of_nat (S i)) ++ [0x2C%N]
                    ++ join [0x20%N] (tokenize pseg lcut title stop))).
Proof.
  intros [Ht Hb]%Forall_and. split; [by apply save_hot_lines|].
  intros i title Hi. apply seg_line_saved.
  rewrite Forall_forall in Ht. by apply Ht, (list_elem_of_lookup_2 _ i).
Qed.

Lemma save_hot_segmented_witness :
  Forall (λ t, trimmed t ∧ Forall (λ c, is_linebreak c = false) t)
    [huawei ++ shouji; [0x21%N]]
  ∧ splitlines (save_hot [huawei ++ shouji; [0x21%N]])
    = [[0x31; 0x2C]%N ++ huawei ++ shouji; [0x32; 0x2C; 0x21]%N]
  ∧ out_lines (Some sample_cut) split_ws
      (save_hot [huawei ++ shouji; [0x21%N]]) ∅
    = [[0x31; 0x2C]%N ++ huawei ++ shouji ++ [0x20%N] ++ huawei
       ++ [0x20%N] ++ shouji].
Proof.
  assert (Forall (λ t, trimmed t ∧ Forall (λ c, is_linebreak c = false) t)
            [huawei ++ shouji; [0x21%N]]) as H.
  { repeat constructor; try done;
      intros c Hc; vm_compute in Hc; by injection Hc as <-. }
  split; [exact H|]. split.
  - exact (proj1 (save_hot_segmented (Some sample_cut) split_ws ∅ _ H)).
  - vm_compute. reflexivity.
Defined.

(** *** What [segment.py] writes and what the mapper reads *)
Lemma isspace_cases c :
  isspace c = true →
  (c = 0x09 ∨ c = 0x0A ∨ c = 0x0B ∨ c = 0x0C ∨ c = 0x0D ∨ c = 0x1C ∨ c = 0x1D
   ∨ c = 0x1E ∨ c = 0x1F ∨ c = 0x20 ∨ c = 0x85 ∨ c = 0xA0 ∨ c = 0x1680
   ∨ c = 0x2000 ∨ c = 0x2001 ∨ c = 0x2002 ∨ c = 0x2003 ∨ c = 0x2004
   ∨ c = 0x2005 ∨ c = 0x2006 ∨ c = 0x2007 ∨ c = 0x2008 ∨ c = 0x2009
   ∨ c = 0x200A ∨ c = 0x2028 ∨ c = 0x2029 ∨ c = 0x202F ∨ c = 0x205F
   ∨ c = 0x3000)%N.
Proof.
  unfold isspace. rewrite !orb_true_iff, !in_range_spec, !N.eqb_eq. lia.
Qed.

Lemma isdigit_char_facts c :
  isdigit_char c = true → isspace c = false ∧ c ≠ 0x2C%N.
Proof.
  intros Hd. split; [|by intros ->].
  destruct (isspace c) eqn:Hs; [|done].
  apply isspace_cases in Hs.
  repeat destruct Hs as [->|Hs]; try subst c; vm_compute in Hd; done.
Qed.

Lemma isdigit_facts s :
  isdigit s = true →
  s ≠ [] ∧ Forall (λ c, isspace c = false) s ∧ 0x2C%N ∉ s.
Proof.
  unfold isdigit. destruct s as [|c s]; [done|].
  rewrite forallb_forall. intros H. split; [done|]. split.
  - apply Forall_forall. intros x Hx%list_elem_of_In.
    by apply H, isdigit_char_facts in Hx as [? _].
  - intros Hx%list_elem_of_In. by apply H, isdigit_char_facts in Hx as [_ ?].
Qed.

Lemma split_ws_join toks :
  Forall (λ t, t ≠ [] ∧ Forall (λ c, isspace c = false) t) toks →
  split_ws (join [0x20%N] toks) = toks.
Proof.
  induction 1 as [|x toks [Hne Hx] Ht IH]; [done|].
  destruct toks as [|y toks]; [by apply split_ws_word|].
  change (join [0x20%N] (x :: y :: toks))
    with (x ++ [0x20%N] ++ join [0x20%N] (y :: toks)).
  cbn [app]. rewrite split_ws_app by done.
  by rewrite IH, split_ws_word.
Qed.

Lemma last_join toks c :
  Forall (λ t, t ≠ [] ∧ Forall (λ c, isspace c = false) t) toks →
  last (join [0x20%N] toks) = Some c → isspace c = false.
Proof.
  induction 1 as [|x toks [Hne Hx] Ht IH]; [done|].
  destruct toks as [|y toks].
  - cbn [join]. intros Hl%last_Some_elem_of.
    rewrite Forall_forall in Hx. by apply Hx.
  - change (join [0x20%N] (x :: y :: toks))
      with (x ++ [0x20%N] ++ join [0x20%N] (y :: toks)).
    rewrite !last_app.
    destruct (last (join [0x20%N] (y :: toks))) as [z|] eqn:Hz; [done|].
    apply last_None in Hz. inversion_clear Ht as [|?? [Hy _] _].
    cbn [join] in Hz. destruct toks; [done|].
    by apply app_eq_nil in Hz as [? _].
Qed.

(** X19. What [segment.py] writes, the mapper reads back: for an output line
    whose tokens hold no whitespace the mapper emits one record per token,
    in order, weighted by the rank if [int] can read it and by 1 if not. *)
Theorem seg_line_mapped (pseg : option (list N → list (list N * list N)))
    (lcut : list N → list (list N)) (stop : gset (list N))
    (line rank_str title out : list N) :
  partition_at 0x2C (strip line) = Some (rank_str, title) →
  seg_line pseg lcut stop line = Some out →
  Forall (Forall (λ c, isspace c = false))
    (tokenize pseg lcut (strip title) stop) →
  map_line out =
    (λ t, fmt_record t (from_option weight_of_rank 1%Z (int (strip rank_str))))
      <$> tokenize pseg lcut (strip title) stop.
Proof.
  intros Hp Hs Hws.
  apply seg_line_Some in Hs as (r & t & Hp' & Hd & Hne & ->).
  rewrite Hp in Hp'. injection Hp' as <- <-.
  set (toks := tokenize pseg lcut (strip title) stop) in *.
  set (rs := strip rank_str) in *.
  apply isdigit_facts in Hd as (Hrs & Hsp & Hcomma).
  assert (Forall (λ t, t ≠ [] ∧ Forall (λ c, isspace c = false) t) toks) as Ht.
  { apply Forall_and. split; [|done]. apply Forall_forall.
    intros x Hx. by apply tokenize_entry_ok in Hx as [[? _] _]. }
  assert (trimmed (rs ++ 0x2C%N :: join [0x20%N] toks)) as Hline.
  { apply (trimmed_app rs (0x2C%N :: _)); [by apply trimmed_nospace|].
    split; intros c; [by intros [= <-]|].
    rewrite last_cons.
    destruct (last (join [0x20%N] toks)) as [y|] eqn:Hy; [|by intros [= <-]].
    intros [= <-]. by apply (last_join toks). }
  assert (partition_at 0x2C (strip (rs ++ [0x2C%N] ++ join [0x20%N] toks))
          = Some (rs, join [0x20%N] toks)) as Hpart.
  { cbn [app]. rewrite (trimmed_strip _ Hline). by apply partition_at_app. }
  rewrite (map_line_comma _ _ _ Hpart).
  unfold weight_and_words, split1. rewrite Hpart.
  destruct (int rs) as [n|]; cbn [fst snd from_option List.last];
    by rewrite split_ws_join.
Qed.

Lemma seg_line_mapped_witness :
  let line := [0x31; 0x2C]%N ++ huawei ++ shouji in
  partition_at 0x2C (strip line) = Some ([0x31%N], huawei ++ shouji)
  ∧ seg_line (Some sample_cut) split_ws ∅ line
    = Some ([0x31; 0x2C]%N ++ huawei ++ shouji ++ [0x20%N] ++ huawei
            ++ [0x20%N] ++ shouji)
  ∧ map_line ([0x31; 0x2C]%N ++ huawei ++ shouji ++ [0x20%N] ++ huawei
              ++ [0x20%N] ++ shouji)
    = [fmt_record (huawei ++ shouji) 50; fmt_record huawei 50;
       fmt_record shouji 50].
Proof.
  split; [reflexivity|]. split; [reflexivity|].
  refine (seg_line_mapped (Some sample_cut) split_ws ∅
            ([0x31; 0x2C]%N ++ huawei ++ shouji) [0x31%N] (huawei ++ shouji)
            _ eq_refl eq_refl _).
  vm_compute. repeat constructor.
Defined.

(** *** Mapper, shuffle, reducer and selector *)

(** X20. From the titles' tokens to the selector's entries: when the reducer
    reads the mapper's output lines in a grouped order, the entries the
    selector parses from the reducer's output are the distinct terms the
    mapper wrote, each once, with the sum of the weights the mapper gave
    it. *)
Theorem pipeline_totals (stdin shuffled : list (list N)) :
  shuffled ≡ₚ mapper stdin →
  grouped ((records shuffled).*1) →
  let terms := first_seen ((records shuffled).*1) in
  parsed (concat (reducer shuffled))
    = (λ t, Entry t (total t (records (mapper stdin)))) <$> terms
  ∧ terms ≡ₚ first_seen ((records (mapper stdin)).*1).
Proof.
  intros Hp Hg terms.
  assert (records shuffled ≡ₚ records (mapper stdin)) as Hr
    by (unfold records; by rewrite Hp).
  split; [|unfold terms; apply first_seen_perm; by rewrite Hr].
  rewrite parsed_reducer.
  - assert (reduce_records None (records shuffled)
            = aggregate (records shuffled)) as ->.
    { destruct (records shuffled) as [|[w c] rest]; [done|].
      simpl. by apply reduce_records_grouped. }
    unfold aggregate. rewrite <- list_fmap_compose.
    apply list_fmap_ext. intros _ t _. cbn. f_equal. by apply total_perm.
  - rewrite Hr. destruct (mapper_records_shape stdin) as (recs & _ & -> & Hall).
    eapply Forall_impl; [exact Hall|].
    intros r (_ & Hws & _). by apply nospace_nobreak.
Qed.

Lemma pipeline_totals_witness :
  let stdin := [[0x31; 0x2C; 0x61; 0x20; 0x62]; [0x32; 0x2C; 0x61]]%N in
  let shuffled :=
    [[0x61; 0x09; 0x35; 0x30; 0x0A]; [0x61; 0x09; 0x34; 0x39; 0x0A];
     [0x62; 0x09; 0x35; 0x30; 0x0A]]%N in
  shuffled ≡ₚ mapper stdin
  ∧ grouped ((records shuffled).*1)
  ∧ parsed (concat (reducer shuffled)) = [Entry [0x61%N] 99; Entry [0x62%N] 50].
Proof.
  set (a50 := [0x61; 0x09; 0x35; 0x30; 0x0A]%N).
  set (a49 := [0x61; 0x09; 0x34; 0x39; 0x0A]%N).
  set (b50 := [0x62; 0x09; 0x35; 0x30; 0x0A]%N).
  assert ([a50; a49; b50]
          ≡ₚ mapper [[0x31; 0x2C; 0x61; 0x20; 0x62]; [0x32; 0x2C; 0x61]]%N)
    as Hp.
  { change (mapper _) with [a50; b50; a49].
    apply Permutation_skip, Permutation_swap. }
  assert (grouped ((records [a50; a49; b50]).*1)) as Hg.
  { intros i j k x Hle Hi Hk.
    destruct i as [|[|[|i]]], j as [|[|[|j]]], k as [|[|[|k]]];
      vm_compute in Hi, Hk |- *; try lia; congruence. }
  split; [exact Hp|]. split; [exact Hg|].
  exact (proj1 (pipeline_totals _ _ Hp Hg)).
Defined.

(** *** The reducer on partitions *)
Lemma reduce_records_split cur r1 r2 :
  (∀ t, last ((option_list cur ++ r1).*1) = Some t → head (r2.*1) ≠ Some t) →
  reduce_records cur (r1 ++ r2)
  = reduce_records cur r1 ++ reduce_records None r2.
Proof.
  revert cur. induction r1 as [|[word cnt] rest IH]; intros cur Hb.
  - destruct cur as [[w s]|]; [|done].
    destruct r2 as [|[word cnt] r2]; [done|].
    cbn [app reduce_records]. rewrite bool_decide_false; [done|].
    intros ->. by apply (Hb word).
  - assert (∀ c, c.1 = word →
              reduce_records (Some c) (rest ++ r2)
              = reduce_records (Some c) rest ++ reduce_records None r2) as Hrec.
    { intros [w s] Hw. cbn [fst] in Hw. subst w. apply IH. intros t Ht.
      apply Hb. destruct cur; cbn in Ht |- *; [|done].
      by destruct rest. }
    cbn [app reduce_records]. destruct cur as [[w s]|].
    + case_bool_decide; [by apply Hrec|].
      cbn [app]. f_equal. by apply Hrec.
    + by apply Hrec.
Qed.

(** X21. The reducer can be run on the parts of its input separately: when
    the last term read from the first part differs from the first term read
    from the second part, the output for the two parts together is the
    output for the first followed by the output for the second. *)
Theorem reducer_split (stdin1 stdin2 : list (list N)) :
  (∀ t, last ((records stdin1).*1) = Some t →
        head ((records stdin2).*1) ≠ Some t) →
  reducer (stdin1 ++ stdin2) = reducer stdin1 ++ reducer stdin2.
Proof.
  intros Hb. rewrite !reducer_reduce_records, records_app.
  rewrite reduce_records_split by done. apply fmap_app.
Qed.

Lemma reducer_split_witness :
  let stdin1 := [[0x61; 0x09; 0x31]; [0x61; 0x09; 0x32]]%N in
  let stdin2 := [[0x62; 0x09; 0x33]]%N in
  (∀ t, last ((records stdin1).*1) = Some t →
        head ((records stdin2).*1) ≠ Some t)
  ∧ reducer (stdin1 ++ stdin2) = reducer stdin1 ++ reducer stdin2.
Proof.
  assert (∀ t, last ((records [[0x61; 0x09; 0x31]; [0x61; 0x09; 0x32]]%N).*1)
               = Some t →
               head ((records [[0x62; 0x09; 0x33]]%N).*1) ≠ Some t) as H.
  { intros t Ht. vm_compute in Ht |- *. congruence. }
  split; [exact H|]. exact (reducer_split _ _ H).
Defined.

(** Without the condition the term at the boundary is written twice. *)
Example reducer_split_boundary :
  reducer ([[0x61; 0x09; 0x31]] ++ [[0x61; 0x09; 0x32]])%N
    = [[0x61; 0x09; 0x33; 0x0A]]%N
  ∧ (reducer [[0x61; 0x09; 0x31]] ++ reducer [[0x61; 0x09; 0x32]])%N
    = [[0x61; 0x09; 0x31; 0x0A]; [0x61; 0x09; 0x32; 0x0A]]%N.
Proof. split; reflexivity. Qed.

End PipelineSpec.
